(** * VectorBase: the default algorithms of drake's abstract vector

    A shallow embedding of [systems/framework/vector_base.h].

    The class is a template over a scalar [T] and leaves [size()] and
    [GetAtIndex()] to its subclasses; its other member functions are default
    implementations written with those two.  C++ passes vectors by reference
    and reports failures by exceptions that leave earlier writes in place, so
    the embedding is a state-and-exception monad over a memory of objects:
    two references may name the same object, and a function that throws hands
    back the memory as it was at the throw. *)

From Stdlib Require Import ZArith String List Ring Lia.
From stdpp Require Import base option list gmap pretty.

Local Open Scope Z_scope.

(** ** Memory, exceptions and the monad *)

(** Objects are named by addresses. *)
Definition address := positive.

(** What a call throws.  [std::out_of_range] carries its message;
    [runtime_error] carries the text of the condition that failed. *)
Inductive exception : Type :=
| runtime_error (condition : string)
| out_of_range (what : string).

(** How a call ends: it returns, it throws, or it has no defined behaviour
    (a null or dangling pointer is dereferenced, an index is outside the
    storage). *)
Inductive outcome (A : Type) : Type :=
| Returns (a : A)
| Throws (e : exception)
| Undefined.
Arguments Returns {A} a.
Arguments Throws {A} e.
Arguments Undefined {A}.

(** Element accesses on VectorBase objects, in the order they happen. *)
Inductive event : Type :=
| Load (obj : address) (index : Z)
| Store (obj : address) (index : Z).

Definition event_eq_dec (x y : event) : {x = y} + {x <> y}.
Proof. decide equality; (apply Z.eq_dec || apply Pos.eq_dec). Defined.
Arguments event_eq_dec : simpl never.

(** How often the access [e] occurs in [es]. *)
Definition occurrences (es : list event) (e : event) : nat :=
  count_occ event_eq_dec es e.

(** The result of [GetAtIndex]: a reference [T&] to one element. *)
Record lvalue : Type := LValue { lv_obj : address; lv_index : Z }.

(** [EigenPtr<VectorX<T>>] and [Eigen::VectorXd*]: [None] is [nullptr]. *)
Definition EigenPtr := option address.

Section VectorBase.

(** The scalar type [T]: any commutative ring, so that arithmetic is exact.
    [D] is the element type of [Eigen::VectorXd]. *)
Context {T D : Type}.
Variables (rO rI : T) (radd rmul rsub : T -> T -> T) (ropp : T -> T).
Hypothesis Tring : ring_theory rO rI radd rmul rsub ropp (@eq T).
Add Ring Tr : Tring.

(** What a freshly allocated [VectorX<T>] holds before it is written. *)
Variable uninit : T.
(** [os << x] for a scalar [x]. *)
Variable show : T -> string.

(** [vectors]: the VectorBase objects, each with its elements;
    [eigen]: the [VectorX<T>] objects; [eigend]: the [VectorXd] objects;
    [trace]: the element accesses made so far, oldest first. *)
Record memory : Type := Memory {
  vectors : gmap address (list T);
  eigen : gmap address (list T);
  eigend : gmap address (list D);
  trace : list event
}.

Definition M (A : Type) : Type := memory -> outcome A * memory.

Definition ret {A : Type} (a : A) : M A := fun m => (Returns a, m).

Definition bind {A B : Type} (c : M A) (k : A -> M B) : M B :=
  fun m =>
    match c m with
    | (Returns a, m') => k a m'
    | (Throws e, m') => (Throws e, m')
    | (Undefined, m') => (Undefined, m')
    end.

Definition throw {A : Type} (e : exception) : M A := fun m => (Throws e, m).

Definition undefined {A : Type} : M A := fun m => (Undefined, m).

Notation "x <- c ;; k" := (bind c (fun x => k))
  (at level 100, c at next level, right associativity).
Notation "c ;; k" := (bind c (fun _ => k))
  (at level 100, right associativity).

(** [for (int i = first; i < first + count; ++i) body], with the local
    variables the body updates passed along as [s]. *)
Fixpoint for_loop {S : Type} (count : nat) (i : Z) (body : Z -> S -> M S) (s : S)
  : M S :=
  match count with
  | O => ret s
  | Datatypes.S count' => s' <- body i s ;; for_loop count' (i + 1) body s'
  end.

(** [for (int i = 0; i < bound; ++i) body].  Where the source tests
    [i < size()] on every round the bound is read once before the loop: the
    class has no operation that resizes, and no write changes a size
    ([store_size] below). *)
Definition for_int {S : Type} (bound : Z) (body : Z -> S -> M S) (s : S) : M S :=
  for_loop (Z.to_nat bound) 0 body s.

(** [for (const auto& x : l) body]. *)
Fixpoint for_each {A S : Type} (l : list A) (body : A -> S -> M S) (s : S) : M S :=
  match l with
  | [] => ret s
  | x :: l' => s' <- body x s ;; for_each l' body s'
  end.

(** Modelled from the spec: the macro DRAKE_THROW_UNLESS comes from
    drake/common/drake_throw.h, which is not among the sources.  It throws
    when its condition is false, and the exception tells which condition
    failed. *)
Definition DRAKE_THROW_UNLESS (condition : string) (holds : bool) : M unit :=
  if holds then ret tt else throw (runtime_error condition).

(** ** The two operations every subclass supplies *)

(** Modelled from the spec: [size()] is pure virtual.  The subclass taken
    here stores its elements in the object itself; the size is their count. *)
Definition size (this : address) : M Z :=
  fun m =>
    match vectors m !! this with
    | Some l => (Returns (Z.of_nat (length l)), m)
    | None => (Undefined, m)
    end.

(** Modelled from the spec: [GetAtIndex(int)] is pure virtual.  It throws
    when the index is [>= size()]; a negative index is left to the subclass
    and is taken as undefined.  The result is a reference to the element. *)
Definition GetAtIndex (this : address) (index : Z) : M lvalue :=
  sz <- size this ;;
  DRAKE_THROW_UNLESS "index < size()" (index <? sz) ;;
  if index <? 0 then undefined else ret (LValue this index).

Definition record (e : event) (m : memory) : memory :=
  Memory (vectors m) (eigen m) (eigend m) (trace m ++ [e]).

(** Reading through a reference. *)
Definition load (p : lvalue) : M T :=
  fun m =>
    if lv_index p <? 0 then (Undefined, m) else
    match vectors m !! lv_obj p with
    | Some l =>
        match l !! Z.to_nat (lv_index p) with
        | Some x => (Returns x, record (Load (lv_obj p) (lv_index p)) m)
        | None => (Undefined, m)
        end
    | None => (Undefined, m)
    end.

(** Writing through a reference. *)
Definition store (p : lvalue) (value : T) : M unit :=
  fun m =>
    if lv_index p <? 0 then (Undefined, m) else
    match vectors m !! lv_obj p with
    | Some l =>
        if Nat.ltb (Z.to_nat (lv_index p)) (length l) then
          (Returns tt,
           Memory (<[lv_obj p := <[Z.to_nat (lv_index p) := value]> l]> (vectors m))
                  (eigen m) (eigend m)
                  (trace m ++ [Store (lv_obj p) (lv_index p)]))
        else (Undefined, m)
    | None => (Undefined, m)
    end.

(** [v.GetAtIndex(i)] used for its value. *)
Definition value_at (v : address) (index : Z) : M T :=
  p <- GetAtIndex v index ;; load p.

(** ** Eigen vectors *)

(** [vec->rows()]. *)
Definition rows (vec : EigenPtr) : M Z :=
  match vec with
  | None => undefined
  | Some a =>
      fun m =>
        match eigen m !! a with
        | Some l => (Returns (Z.of_nat (length l)), m)
        | None => (Undefined, m)
        end
  end.

(** Reading element [i] of the vector [vec] points to.  Eigen does not
    check the index. *)
Definition eigen_get (vec : EigenPtr) (i : Z) : M T :=
  match vec with
  | None => undefined
  | Some a =>
      fun m =>
        if i <? 0 then (Undefined, m) else
        match eigen m !! a with
        | Some l =>
            match l !! Z.to_nat i with
            | Some x => (Returns x, m)
            | None => (Undefined, m)
            end
        | None => (Undefined, m)
        end
  end.

(** Writing [x] to element [i] of the vector [vec] points to. *)
Definition eigen_set (vec : EigenPtr) (i : Z) (x : T) : M unit :=
  match vec with
  | None => undefined
  | Some a =>
      fun m =>
        if i <? 0 then (Undefined, m) else
        match eigen m !! a with
        | Some l =>
            if Nat.ltb (Z.to_nat i) (length l) then
              (Returns tt,
               Memory (vectors m) (<[a := <[Z.to_nat i := x]> l]> (eigen m))
                      (eigend m) (trace m))
            else (Undefined, m)
        | None => (Undefined, m)
        end
  end.

(** [vec->resize(0)] on an [Eigen::VectorXd]. *)
Definition resize0 (vec : EigenPtr) : M unit :=
  match vec with
  | None => undefined
  | Some a =>
      fun m =>
        match eigend m !! a with
        | Some _ =>
            (Returns tt,
             Memory (vectors m) (eigen m) (<[a := []]> (eigend m)) (trace m))
        | None => (Undefined, m)
        end
  end.

(** ** The default implementations *)

Definition SetAtIndex (this : address) (index : Z) (value : T) : M unit :=
  p <- GetAtIndex this index ;; store p value.

Definition SetFrom (this value : address) : M unit :=
  n <- size value ;;
  sz <- size this ;;
  DRAKE_THROW_UNLESS "value.size() == size()" (n =? sz) ;;
  for_int n (fun i _ => x <- value_at value i ;; SetAtIndex this i x) tt.

Definition SetZero (this : address) : M unit :=
  sz <- size this ;;
  for_int sz (fun i _ => SetAtIndex this i rO) tt.

(** The local [vec] is the loop's variable and the returned value. *)
Definition CopyToVector (this : address) : M (list T) :=
  sz <- size this ;;
  for_int sz
    (fun i vec => x <- value_at this i ;; ret (<[Z.to_nat i := x]> vec))
    (replicate (Z.to_nat sz) uninit).

Definition is_nullptr (vec : EigenPtr) : bool :=
  match vec with None => true | Some _ => false end.

Definition CopyToPreSizedVector (this : address) (vec : EigenPtr) : M unit :=
  DRAKE_THROW_UNLESS "vec != nullptr" (negb (is_nullptr vec)) ;;
  r <- rows vec ;;
  sz <- size this ;;
  DRAKE_THROW_UNLESS "vec->rows() == size()" (r =? sz) ;;
  for_int sz (fun i _ => x <- value_at this i ;; eigen_set vec i x) tt.

(** A parameter [const T& scale]: where the scalar it refers to is stored.
    The callee reads it anew at every use, so a write to that place between
    two uses is seen. *)
Inductive scalar_ref : Type :=
| Elsewhere (s : T)
| InVector (p : lvalue)
| InEigen (a : address) (i : Z).

(** Reading the scalar a reference names: a scalar stored outside all
    vectors, an element of a VectorBase, or an element of an Eigen vector. *)
Definition read_scalar (r : scalar_ref) : M T :=
  match r with
  | Elsewhere s => ret s
  | InVector p => load p
  | InEigen a i => eigen_get (Some a) i
  end.

(** [scale] is a reference, read in every round of the loop. *)
Definition ScaleAndAddToVector (this : address) (scale : scalar_ref)
    (vec : EigenPtr) : M unit :=
  DRAKE_THROW_UNLESS "vec != nullptr" (negb (is_nullptr vec)) ;;
  r <- rows vec ;;
  sz <- size this ;;
  (if negb (r =? sz) then throw (out_of_range "Addends must be the same size.")
   else ret tt) ;;
  for_int sz
    (fun i _ =>
       s <- read_scalar scale ;;
       x <- value_at this i ;;
       y <- eigen_get vec i ;;
       eigen_set vec i (radd y (rmul s x))) tt.

Definition DoPlusEqScaled (this : address) (rhs_scale : list (T * address))
  : M unit :=
  sz <- size this ;;
  for_int sz
    (fun i _ =>
       value <- for_each rhs_scale
                  (fun operand value =>
                     x <- value_at (snd operand) i ;;
                     ret (radd value (rmul x (fst operand))))
                  rO ;;
       x <- value_at this i ;;
       SetAtIndex this i (radd x value)) tt.

(** The initializer-list overload; it returns [*this]. *)
Definition PlusEqScaled (this : address) (rhs_scale : list (T * address))
  : M address :=
  for_each rhs_scale
    (fun operand _ =>
       n <- size (snd operand) ;;
       sz <- size this ;;
       if negb (n =? sz)
       then throw (out_of_range "Addends must be the same size.")
       else ret tt) tt ;;
  DoPlusEqScaled this rhs_scale ;;
  ret this.

(** The overload with one scale and one vector. *)
Definition PlusEqScaled1 (this : address) (scale : T) (rhs : address)
  : M address :=
  PlusEqScaled this [(scale, rhs)].

Definition operator_plus_eq (this rhs : address) : M address :=
  PlusEqScaled1 this rI rhs.

Definition operator_minus_eq (this rhs : address) : M address :=
  PlusEqScaled1 this (ropp rI) rhs.

Definition GetElementBounds (this : address) (lower upper : EigenPtr) : M unit :=
  resize0 lower ;;
  resize0 upper.

(** [os << vec]; the stream is the text written to it so far. *)
Definition operator_shl (os : string) (vec : address) : M string :=
  let os := String.append os "[" in
  sz <- size vec ;;
  os <- for_int sz
          (fun i os =>
             let os := if 0 <? i then String.append os ", " else os in
             x <- value_at vec i ;;
             ret (String.append os (show x)))
          os ;;
  ret (String.append os "]").

(** ** The other member functions *)

(** [std::size_t] to [int], as in the call [GetAtIndex(idx)] of
    [operator[]]: with a 64-bit [size_t] and a 32-bit [int] the value is
    reduced modulo 2^32 into the range of [int]. *)
Definition int_of_size_t (idx : Z) : Z :=
  let r := idx mod 2 ^ 32 in
  if r <? 2 ^ 31 then r else r - 2 ^ 32.

(** [operator[](std::size_t idx)], both overloads. *)
Definition operator_index (this : address) (idx : Z) : M lvalue :=
  GetAtIndex this (int_of_size_t idx).

(** [value] is a reference to an Eigen vector, so it names an object. *)
Definition SetFromVector (this : address) (value : address) : M unit :=
  r <- rows (Some value) ;;
  sz <- size this ;;
  DRAKE_THROW_UNLESS "value.rows() == size()" (r =? sz) ;;
  for_int r (fun i _ => x <- eigen_get (Some value) i ;; SetAtIndex this i x) tt.

(** The deprecated overload that takes the output by reference and passes
    its address on. *)
Definition ScaleAndAddToVector_ref (this : address) (scale : scalar_ref)
    (vec : address) : M unit :=
  ScaleAndAddToVector this scale (Some vec).

(** [std::abs] and [std::max] on scalars, as [NormInf] uses them. *)
Variable scalar_abs : T -> T.
Variable scalar_max : T -> T -> T.

Definition NormInf (this : address) : M T :=
  count <- size this ;;
  for_int count
    (fun i norm =>
       x <- value_at this i ;;
       let val := scalar_abs x in
       ret (scalar_max norm val))
    rO.

(** ** Vocabulary of the statements *)

(** The memory [m] after the accesses [es] have been added to its trace. *)
Definition logged (m : memory) (es : list event) : memory :=
  Memory (vectors m) (eigen m) (eigend m) (trace m ++ es).

(** The memory [m] after object [a] got the elements [l] and the accesses
    [es] were made. *)
Definition updated (m : memory) (a : address) (l : list T) (es : list event)
  : memory :=
  Memory (<[a := l]> (vectors m)) (eigen m) (eigend m) (trace m ++ es).

(** While such a loop runs, the first [j] elements are the new ones and the
    rest are still the old ones. *)
Definition partly (nw old : list T) (j : nat) : list T :=
  take j nw ++ drop j old.

(** Element [i] of object [a] in memory [m]. *)
Definition element (m : memory) (a : address) (i : nat) : T :=
  nth i (default [] (vectors m !! a)) rO.

(** The value the inner loop of [DoPlusEqScaled] leaves in [value] for
    index [i]: from [T(0)], each operand in turn adds its element times its
    scale. *)
Definition accumulated (m : memory) (rhs_scale : list (T * address)) (i : nat)
  : T :=
  fold_left
    (fun value operand => radd value (rmul (element m (snd operand) i) (fst operand)))
    rhs_scale rO.

(** The sum over the operands [k] of [scale_k * vector_k[i]]. *)
Definition scaled_sum (m : memory) (rhs_scale : list (T * address)) (i : nat)
  : T :=
  foldr (fun operand acc => radd (rmul (fst operand) (element m (snd operand) i)) acc)
    rO rhs_scale.

(** The accesses of round [j] of [DoPlusEqScaled]: one read of each operand
    in list order, then one read and one write of [this]. *)
Definition round_accesses (this : address) (rhs_scale : list (T * address))
    (j : nat) : list event :=
  map (fun operand : T * address => Load (snd operand) (Z.of_nat j)) rhs_scale
  ++ [Load this (Z.of_nat j); Store this (Z.of_nat j)].

(** Every operand is an object of the memory with as many elements as [l]. *)
Definition sized_like (m : memory) (l : list T) (rhs_scale : list (T * address))
  : Prop :=
  Forall (fun operand : T * address =>
            exists lk, vectors m !! snd operand = Some lk /\ length lk = length l)
    rhs_scale.

(** The size check at the head of [PlusEqScaled]. *)
Definition check_sizes (this : address) (rhs_scale : list (T * address))
  : M unit :=
  for_each rhs_scale
    (fun operand _ =>
       n <- size (snd operand) ;;
       sz <- size this ;;
       if negb (n =? sz)
       then throw (out_of_range "Addends must be the same size.")
       else ret tt) tt.

(** The memory [m] after the Eigen vector [a] got the elements [l] and the
    accesses [es] were made. *)
Definition eupdated (m : memory) (a : address) (l : list T) (es : list event)
  : memory :=
  Memory (vectors m) (<[a := l]> (eigen m)) (eigend m) (trace m ++ es).

(** However the computation ends, every VectorBase object holds what it
    held before. *)
Definition read_only {A : Type} (c : M A) : Prop :=
  forall m, vectors (snd (c m)) = vectors m.

(** The elements of [l] as text, separated by a comma and a space. *)
Definition listing (l : list T) : string := String.concat ", " (map show l).

(** The largest absolute value in [l], as [NormInf] folds it up from
    [T(0)]. *)
Definition norm_of (l : list T) : T :=
  fold_left (fun norm x => scalar_max norm (scalar_abs x)) l rO.

(** [m'] differs from [m] at most in the elements of the vector [this] and
    in the trace: every other vector, the number of elements of [this] and
    all Eigen vectors are the same. *)
Definition elements_of_only (this : address) (m m' : memory) : Prop :=
  (forall a, a <> this -> vectors m' !! a = vectors m !! a)
  /\ length <$> (vectors m' !! this) = length <$> (vectors m !! this)
  /\ eigen m' = eigen m
  /\ eigend m' = eigend m.

(** However [c] ends, the memory it leaves is related by [R] to the memory
    it started in. *)
Definition always {A : Type} (R : memory -> memory -> Prop) (c : M A) : Prop :=
  forall m, R m (snd (c m)).

(** Accumulating the operands one call after the other. *)
Definition PlusEqScaled_each (this : address) (rhs_scale : list (T * address))
  : M unit :=
  for_each rhs_scale
    (fun operand _ => PlusEqScaled1 this (fst operand) (snd operand) ;; ret tt)
    tt.

(** The element accesses that one reading of [scale] adds to the trace. *)
Definition scale_accesses (scale : scalar_ref) : list event :=
  match scale with
  | InVector p => [Load (lv_obj p) (lv_index p)]
  | _ => []
  end.

(** In the memory [m] the reference [scale] names a scalar of value [s], and
    no round of [ScaleAndAddToVector] with the output [a] of [n] rows writes
    to that scalar before the last round has read it: the scalar is stored
    outside the output, or is the last element of the output. *)
Definition scale_kept (m : memory) (a : address) (n : nat) (scale : scalar_ref)
    (s : T) : Prop :=
  match scale with
  | Elsewhere s' => s' = s
  | InVector p =>
      0 <= lv_index p
      /\ exists l, vectors m !! lv_obj p = Some l
                   /\ l !! Z.to_nat (lv_index p) = Some s
  | InEigen b k =>
      0 <= k
      /\ (exists lb, eigen m !! b = Some lb /\ lb !! Z.to_nat k = Some s)
      /\ (b = a -> Datatypes.S (Z.to_nat k) = n)
  end.

(** From a memory whose vectors are [V] the computation [c] does not
    throw. *)
Definition never_throws_from {A : Type} (V : gmap address (list T)) (c : M A)
  : Prop :=
  forall m e, vectors m = V -> fst (c m) <> Throws e.

(** ** Running the monad *)

Lemma logged_nil m : logged m [] = m.
Proof. destruct m; unfold logged; simpl. by rewrite app_nil_r. Qed.

Lemma logged_logged m es es' : logged (logged m es) es' = logged m (es ++ es').
Proof. unfold logged; simpl. by rewrite app_assoc. Qed.

Lemma updated_same m a l es :
  vectors m !! a = Some l -> updated m a l es = logged m es.
Proof. intros H. unfold updated, logged. by rewrite insert_id. Qed.

Lemma updated_updated m a l es l' es' :
  updated (updated m a l es) a l' es' = updated m a l' (es ++ es').
Proof. unfold updated; simpl. by rewrite insert_insert_eq, app_assoc. Qed.

Lemma bind_returns {A B : Type} (c : M A) (k : A -> M B) m a m' :
  c m = (Returns a, m') -> bind c k m = k a m'.
Proof. intros H. unfold bind. by rewrite H. Qed.

(** Run the first computation of a sequence with the equation [H]. *)
Tactic Notation "step" uconstr(H) := rewrite (bind_returns _ _ _ _ _ H).

Lemma bind_throws {A B : Type} (c : M A) (k : A -> M B) m e m' :
  c m = (Throws e, m') -> bind c k m = (Throws e, m').
Proof. intros H. unfold bind. by rewrite H. Qed.

Lemma size_run this l m :
  vectors m !! this = Some l -> size this m = (Returns (Z.of_nat (length l)), m).
Proof. intros H. unfold size. by rewrite H. Qed.

Lemma GetAtIndex_run this l m i :
  vectors m !! this = Some l -> (i < length l)%nat ->
  GetAtIndex this (Z.of_nat i) m = (Returns (LValue this (Z.of_nat i)), m).
Proof.
  intros H Hi. unfold GetAtIndex.
  step (size_run _ _ _ H).
  unfold DRAKE_THROW_UNLESS.
  destruct (Z.ltb_spec (Z.of_nat i) (Z.of_nat (length l))) as [_|C]; [|lia].
  unfold bind, ret; simpl.
  destruct (Z.ltb_spec (Z.of_nat i) 0) as [C|_]; [lia|done].
Qed.

Lemma value_at_run a l m i x :
  vectors m !! a = Some l -> l !! i = Some x ->
  value_at a (Z.of_nat i) m = (Returns x, logged m [Load a (Z.of_nat i)]).
Proof.
  intros H Hx. unfold value_at.
  step (GetAtIndex_run _ _ _ _ H (lookup_lt_Some _ _ _ Hx)).
  unfold load; simpl.
  destruct (Z.ltb_spec (Z.of_nat i) 0) as [C|_]; [lia|].
  by rewrite H, Nat2Z.id, Hx.
Qed.

Lemma SetAtIndex_run this l m i v :
  vectors m !! this = Some l -> (i < length l)%nat ->
  SetAtIndex this (Z.of_nat i) v m
  = (Returns tt, updated m this (<[i := v]> l) [Store this (Z.of_nat i)]).
Proof.
  intros H Hi. unfold SetAtIndex.
  step (GetAtIndex_run _ _ _ _ H Hi).
  unfold store; simpl.
  destruct (Z.ltb_spec (Z.of_nat i) 0) as [C|_]; [lia|].
  rewrite H, Nat2Z.id.
  destruct (Nat.ltb_spec i (length l)) as [_|C]; [done|lia].
Qed.

(** No write changes a size. *)
Lemma store_size p v m m' a :
  store p v m = (Returns tt, m') -> size a m' = (fst (size a m), m').
Proof.
  unfold store. destruct (lv_index p <? 0); [done|].
  destruct (vectors m !! lv_obj p) as [l|] eqn:E; [|done].
  destruct (Nat.ltb _ _); [|done].
  intros [= <-]. unfold size; simpl.
  destruct (decide (lv_obj p = a)) as [Ha|N].
  - rewrite <- Ha. by rewrite lookup_insert_eq, E, length_insert.
  - rewrite lookup_insert_ne by done. by destruct (vectors m !! a).
Qed.

(** A loop that keeps an invariant runs to its end and the invariant holds
    there. *)
Lemma for_loop_inv {S : Type} (I : nat -> S -> memory -> Prop)
    (body : Z -> S -> M S) (n : nat) :
  forall (k : nat) (s : S) (m : memory),
    I k s m ->
    (forall j s1 m1, (k <= j < k + n)%nat -> I j s1 m1 ->
       exists s2 m2, body (Z.of_nat j) s1 m1 = (Returns s2, m2)
                     /\ I (Datatypes.S j) s2 m2) ->
    exists s' m', for_loop n (Z.of_nat k) body s m = (Returns s', m')
                  /\ I (k + n)%nat s' m'.
Proof.
  induction n as [|n IH]; intros k s m HI Hstep.
  - exists s, m. rewrite Nat.add_0_r. done.
  - destruct (Hstep k s m ltac:(lia) HI) as (s2 & m2 & Hb & HI2).
    destruct (IH (Datatypes.S k) s2 m2 HI2) as (s' & m' & Hl & HI').
    { intros j s1 m1 Hj. apply Hstep. lia. }
    exists s', m'. split.
    + simpl. step Hb.
      by replace (Z.of_nat k + 1) with (Z.of_nat (Datatypes.S k)) by lia.
    + by replace (k + Datatypes.S n)%nat with (Datatypes.S k + n)%nat by lia.
Qed.

(** ** Loops that fill a vector front to back *)

Lemma partly_0 nw old : partly nw old 0 = old.
Proof. unfold partly. by rewrite take_0, drop_0. Qed.

Lemma partly_all nw old : length nw = length old -> partly nw old (length old) = nw.
Proof.
  intros H. unfold partly.
  rewrite take_ge by lia. rewrite drop_ge by lia. apply app_nil_r.
Qed.

Lemma partly_length nw old j :
  length nw = length old -> length (partly nw old j) = length old.
Proof.
  intros H. unfold partly. rewrite length_app, length_take, length_drop. lia.
Qed.

Lemma partly_lookup nw old j :
  length nw = length old -> partly nw old j !! j = old !! j.
Proof.
  intros H. unfold partly.
  destruct (decide (j < length old)%nat) as [Hj|Hj].
  - rewrite lookup_app_r by (rewrite length_take; lia).
    rewrite length_take, lookup_drop. f_equal. lia.
  - rewrite (lookup_ge_None_2 old) by lia.
    apply lookup_ge_None_2. rewrite length_app, length_take, length_drop. lia.
Qed.

Lemma partly_insert nw old j x :
  nw !! j = Some x -> (j < length old)%nat ->
  <[j := x]> (partly nw old j) = partly nw old (Datatypes.S j).
Proof.
  intros Hx Hj. unfold partly.
  pose proof (lookup_lt_Some _ _ _ Hx) as Hn.
  destruct (lookup_lt_is_Some_2 old j Hj) as [y Hy].
  rewrite insert_app_r_alt by (rewrite length_take; lia).
  rewrite length_take, (drop_S _ _ _ Hy), (take_S_r _ _ _ Hx).
  replace (j - j `min` length nw)%nat with 0%nat by lia.
  simpl. by rewrite <- app_assoc.
Qed.

(** Reading element [j] of any object while [this] is partly filled up to
    [j] gives the element the object had before the loop. *)
Lemma value_at_partly m this l nw j es a la x :
  vectors m !! this = Some l -> length nw = length l ->
  vectors m !! a = Some la -> la !! j = Some x ->
  value_at a (Z.of_nat j) (updated m this (partly nw l j) es)
  = (Returns x, logged (updated m this (partly nw l j) es) [Load a (Z.of_nat j)]).
Proof.
  intros Hthis Hlen Ha Hx.
  destruct (decide (a = this)) as [->|Hne].
  - assert (la = l) as -> by congruence.
    apply (value_at_run _ (partly nw l j)).
    + unfold updated; simpl. apply lookup_insert_eq.
    + by rewrite partly_lookup.
  - apply (value_at_run _ la); [|done].
    unfold updated; simpl. by rewrite lookup_insert_ne.
Qed.

(** The loop [for (i = 0; i < size(); ++i)] whose round [j] makes the
    accesses [ev j] and leaves [nw[j]] in [this[j]], touching nothing else,
    ends with [this] holding [nw]. *)
Lemma fill_loop this (nw : list T) (ev : nat -> list event)
    (body : Z -> unit -> M unit) m l :
  vectors m !! this = Some l -> length nw = length l ->
  (forall j x es, nw !! j = Some x ->
     body (Z.of_nat j) tt (updated m this (partly nw l j) es)
     = (Returns tt,
        updated m this (<[j := x]> (partly nw l j)) (es ++ ev j))) ->
  for_int (Z.of_nat (length l)) body tt m
  = (Returns tt, updated m this nw (flat_map ev (seq 0 (length l)))).
Proof.
  intros Hthis Hlen Hbody. unfold for_int. rewrite Nat2Z.id.
  destruct (for_loop_inv
              (fun j _ m' =>
                 m' = updated m this (partly nw l j) (flat_map ev (seq 0 j)))
              body (length l) 0%nat tt m) as (s' & m' & Hrun & ->).
  - rewrite partly_0. rewrite updated_same by done. by rewrite logged_nil.
  - intros j [] m1 Hj ->.
    destruct (lookup_lt_is_Some_2 nw j ltac:(lia)) as [x Hx].
    exists tt. eexists. split; [by apply Hbody|].
    rewrite partly_insert by (done || lia).
    by rewrite seq_S, flat_map_app; simpl; rewrite app_nil_r.
  - change (Z.of_nat 0) with 0 in Hrun. rewrite Hrun. destruct s'.
    rewrite Nat.add_0_l. by rewrite partly_all.
Qed.

Lemma updated_lookup m a l es : vectors (updated m a l es) !! a = Some l.
Proof. unfold updated; simpl. apply lookup_insert_eq. Qed.

Lemma logged_updated m a l es es' :
  logged (updated m a l es) es' = updated m a l (es ++ es').
Proof. unfold updated, logged; simpl. by rewrite app_assoc. Qed.

(** One round of a filling loop: write [x] to [this[j]]. *)
Lemma SetAtIndex_partly m this l nw j es x :
  length nw = length l -> (j < length l)%nat ->
  SetAtIndex this (Z.of_nat j) x (updated m this (partly nw l j) es)
  = (Returns tt,
     updated m this (<[j := x]> (partly nw l j)) (es ++ [Store this (Z.of_nat j)])).
Proof.
  intros Hlen Hj.
  rewrite (SetAtIndex_run _ (partly nw l j)).
  - by rewrite updated_updated.
  - apply updated_lookup.
  - by rewrite partly_length.
Qed.

(** ** What each default implementation does *)

Lemma SetZero_run this l m :
  vectors m !! this = Some l ->
  SetZero this m
  = (Returns tt,
     updated m this (replicate (length l) rO)
       (flat_map (fun j => [Store this (Z.of_nat j)]) (seq 0 (length l)))).
Proof.
  intros H. unfold SetZero.
  step (size_run _ _ _ H).
  apply fill_loop; [done|by rewrite length_replicate|].
  intros j x es Hx.
  apply lookup_replicate in Hx as [-> Hj].
  apply SetAtIndex_partly; [by rewrite length_replicate|done].
Qed.

Lemma CopyToVector_run this l m :
  vectors m !! this = Some l ->
  CopyToVector this m
  = (Returns l,
     logged m (flat_map (fun j => [Load this (Z.of_nat j)]) (seq 0 (length l)))).
Proof.
  intros H. unfold CopyToVector.
  step (size_run _ _ _ H).
  unfold for_int. rewrite Nat2Z.id.
  set (fresh := replicate (length l) uninit).
  assert (length l = length fresh) as Hlen by (unfold fresh; by rewrite length_replicate).
  destruct (for_loop_inv
              (fun j vec m' =>
                 vec = partly l fresh j
                 /\ m' = logged m (flat_map (fun j => [Load this (Z.of_nat j)])
                                     (seq 0 j)))
              (fun i vec => x <- value_at this i ;; ret (<[Z.to_nat i := x]> vec))
              (length l) 0%nat fresh m) as (vec & m' & Hrun & -> & ->).
  - split; [by rewrite partly_0|by rewrite logged_nil].
  - intros j vec m1 Hj [-> ->].
    destruct (lookup_lt_is_Some_2 l j ltac:(lia)) as [x Hx].
    eexists _, _. split.
    + cbv beta.
      step (value_at_run this l (logged m _) j x H Hx).
      unfold ret. rewrite Nat2Z.id. reflexivity.
    + split.
      * apply partly_insert; [done|lia].
      * rewrite logged_logged. by rewrite seq_S, flat_map_app; simpl.
  - change (Z.of_nat 0) with 0 in Hrun. rewrite Hrun, Nat.add_0_l.
    rewrite Hlen at 1. by rewrite partly_all.
Qed.

Lemma SetFrom_run this value l lv m :
  vectors m !! this = Some l -> vectors m !! value = Some lv ->
  length lv = length l ->
  SetFrom this value m
  = (Returns tt,
     updated m this lv
       (flat_map (fun j => [Load value (Z.of_nat j); Store this (Z.of_nat j)])
          (seq 0 (length l)))).
Proof.
  intros H Hv Hlen. unfold SetFrom.
  step (size_run _ _ _ Hv).
  step (size_run _ _ _ H).
  rewrite Hlen, Z.eqb_refl. unfold DRAKE_THROW_UNLESS.
  rewrite (bind_returns _ _ m tt m) by done.
  apply fill_loop; [done|done|].
  intros j x es Hx.
  step (value_at_partly m this l lv j es value lv x H Hlen Hv Hx).
  rewrite logged_updated.
  rewrite SetAtIndex_partly; [|done|apply lookup_lt_Some in Hx; lia].
  by rewrite <- app_assoc.
Qed.

Lemma SetFrom_mismatch this value l lv m :
  vectors m !! this = Some l -> vectors m !! value = Some lv ->
  length lv <> length l ->
  SetFrom this value m = (Throws (runtime_error "value.size() == size()"), m).
Proof.
  intros H Hv Hlen. unfold SetFrom.
  step (size_run _ _ _ Hv).
  step (size_run _ _ _ H).
  destruct (Z.eqb_spec (Z.of_nat (length lv)) (Z.of_nat (length l))); [lia|].
  done.
Qed.

(** ** Scaled accumulation *)

Lemma element_lookup m a la i x :
  vectors m !! a = Some la -> la !! i = Some x -> element m a i = x.
Proof.
  intros Ha Hx. unfold element. rewrite Ha. simpl.
  by apply nth_lookup_Some with (d := rO) in Hx.
Qed.

Lemma fold_accumulate m ops i v :
  fold_left
    (fun value operand => radd value (rmul (element m (snd operand) i) (fst operand)))
    ops v
  = radd v (scaled_sum m ops i).
Proof.
  revert v. induction ops as [|op ops IH]; intros v; simpl.
  - ring.
  - rewrite IH. ring.
Qed.

Lemma accumulated_scaled_sum m ops i : accumulated m ops i = scaled_sum m ops i.
Proof. unfold accumulated. rewrite fold_accumulate. ring. Qed.

(** The inner loop of [DoPlusEqScaled] in round [j]. *)
Lemma accumulate_run m this l nw j ops :
  vectors m !! this = Some l -> length nw = length l -> (j < length l)%nat ->
  sized_like m l ops ->
  forall v es,
    for_each ops
      (fun operand value =>
         x <- value_at (snd operand) (Z.of_nat j) ;;
         ret (radd value (rmul x (fst operand))))
      v (updated m this (partly nw l j) es)
    = (Returns
         (fold_left
            (fun value operand =>
               radd value (rmul (element m (snd operand) j) (fst operand)))
            ops v),
       updated m this (partly nw l j)
         (es ++ map (fun operand : T * address => Load (snd operand) (Z.of_nat j))
                  ops)).
Proof.
  intros Hthis Hlen Hj Hops. induction Hops as [|op ops (lk & Hk & Hlk) _ IH];
    intros v es; simpl.
  - unfold ret. by rewrite app_nil_r.
  - destruct (lookup_lt_is_Some_2 lk j ltac:(lia)) as [x Hx].
    rewrite (bind_returns _ _ _ _ _
               (bind_returns _ _ _ _ _
                  (value_at_partly m this l nw j es (snd op) lk x Hthis Hlen Hk Hx))).
    unfold ret at 1. rewrite logged_updated, IH.
    rewrite (element_lookup _ _ _ _ _ Hk Hx). by rewrite <- app_assoc.
Qed.

Lemma DoPlusEqScaled_run this ops l m :
  vectors m !! this = Some l -> sized_like m l ops ->
  DoPlusEqScaled this ops m
  = (Returns tt,
     updated m this (imap (fun i x => radd x (accumulated m ops i)) l)
       (flat_map (round_accesses this ops) (seq 0 (length l)))).
Proof.
  intros H Hops. unfold DoPlusEqScaled.
  step (size_run _ _ _ H).
  apply fill_loop; [done|by rewrite length_imap|].
  intros j x es Hx.
  rewrite list_lookup_imap in Hx.
  destruct (l !! j) as [y|] eqn:Hy; [|done]. injection Hx as <-.
  pose proof (lookup_lt_Some _ _ _ Hy) as Hj.
  assert (length (imap (fun i x => radd x (accumulated m ops i)) l) = length l)
    as Hlen by apply length_imap.
  step (accumulate_run m this l _ j ops H Hlen Hj Hops rO es).
  step (value_at_partly m this l _ j _ this l y H Hlen H Hy).
  rewrite logged_updated, SetAtIndex_partly by done.
  unfold round_accesses, accumulated. by rewrite <- !app_assoc.
Qed.

Lemma check_sizes_pass this ops l m :
  vectors m !! this = Some l -> sized_like m l ops ->
  check_sizes this ops m = (Returns tt, m).
Proof.
  intros H Hops. unfold check_sizes.
  induction Hops as [|op ops (lk & Hk & Hlk) _ IH]; simpl; [done|].
  rewrite (bind_returns _ _ m tt m); [done|].
  step (size_run _ _ _ Hk).
  step (size_run _ _ _ H).
  by rewrite Hlk, Z.eqb_refl.
Qed.

Lemma check_sizes_fail this ops l m :
  vectors m !! this = Some l ->
  Forall (fun operand : T * address => is_Some (vectors m !! snd operand)) ops ->
  Exists (fun operand : T * address =>
            exists lk, vectors m !! snd operand = Some lk /\ length lk <> length l)
    ops ->
  check_sizes this ops m
  = (Throws (out_of_range "Addends must be the same size."), m).
Proof.
  intros H Hall Hex. unfold check_sizes.
  induction Hall as [|op ops [lk Hk] _ IH]; [by apply Exists_nil in Hex|].
  simpl.
  destruct (decide (length lk = length l)) as [Heq|Hne].
  - rewrite (bind_returns _ _ m tt m).
    + apply IH. apply Exists_cons in Hex as [(lk' & Hk' & Hne)|Hex]; [|done].
      congruence.
    + step (size_run _ _ _ Hk).
      step (size_run _ _ _ H).
      by rewrite Heq, Z.eqb_refl.
  - apply bind_throws.
    step (size_run _ _ _ Hk).
    step (size_run _ _ _ H).
    destruct (Z.eqb_spec (Z.of_nat (length lk)) (Z.of_nat (length l))); [lia|done].
Qed.

Lemma PlusEqScaled_run this ops l m :
  vectors m !! this = Some l -> sized_like m l ops ->
  PlusEqScaled this ops m
  = (Returns this,
     updated m this (imap (fun i x => radd x (accumulated m ops i)) l)
       (flat_map (round_accesses this ops) (seq 0 (length l)))).
Proof.
  intros H Hops. unfold PlusEqScaled.
  step (check_sizes_pass _ _ _ _ H Hops).
  by step (DoPlusEqScaled_run _ _ _ _ H Hops).
Qed.

(** ** Copies into Eigen vectors *)

Lemma eupdated_same m a l : eigen m !! a = Some l -> eupdated m a l [] = m.
Proof.
  intros H. unfold eupdated. rewrite insert_id by done. rewrite app_nil_r.
  by destruct m.
Qed.

Lemma eupdated_eupdated m a l es l' es' :
  eupdated (eupdated m a l es) a l' es' = eupdated m a l' (es ++ es').
Proof. unfold eupdated; simpl. by rewrite insert_insert_eq, app_assoc. Qed.

Lemma logged_eupdated m a l es es' :
  logged (eupdated m a l es) es' = eupdated m a l (es ++ es').
Proof. unfold eupdated, logged; simpl. by rewrite app_assoc. Qed.

Lemma rows_run a lo m :
  eigen m !! a = Some lo -> rows (Some a) m = (Returns (Z.of_nat (length lo)), m).
Proof. intros H. unfold rows. by rewrite H. Qed.

Lemma eigen_get_run a lo m i y :
  eigen m !! a = Some lo -> lo !! i = Some y ->
  eigen_get (Some a) (Z.of_nat i) m = (Returns y, m).
Proof.
  intros H Hy. unfold eigen_get.
  destruct (Z.ltb_spec (Z.of_nat i) 0) as [C|_]; [lia|].
  by rewrite H, Nat2Z.id, Hy.
Qed.

Lemma eigen_set_run a lo m i x :
  eigen m !! a = Some lo -> (i < length lo)%nat ->
  eigen_set (Some a) (Z.of_nat i) x m
  = (Returns tt, eupdated m a (<[i := x]> lo) []).
Proof.
  intros H Hi. unfold eigen_set.
  destruct (Z.ltb_spec (Z.of_nat i) 0) as [C|_]; [lia|].
  rewrite H, Nat2Z.id.
  destruct (Nat.ltb_spec i (length lo)) as [_|C]; [|lia].
  unfold eupdated. by rewrite app_nil_r.
Qed.

(** The counterpart of [fill_loop] for a loop that fills the Eigen vector
    [a]. *)
Lemma eigen_fill_loop a (nw : list T) (ev : nat -> list event)
    (body : Z -> unit -> M unit) m lo :
  eigen m !! a = Some lo -> length nw = length lo ->
  (forall j x es, nw !! j = Some x ->
     body (Z.of_nat j) tt (eupdated m a (partly nw lo j) es)
     = (Returns tt,
        eupdated m a (<[j := x]> (partly nw lo j)) (es ++ ev j))) ->
  for_int (Z.of_nat (length lo)) body tt m
  = (Returns tt, eupdated m a nw (flat_map ev (seq 0 (length lo)))).
Proof.
  intros Ha Hlen Hbody. unfold for_int. rewrite Nat2Z.id.
  destruct (for_loop_inv
              (fun j _ m' =>
                 m' = eupdated m a (partly nw lo j) (flat_map ev (seq 0 j)))
              body (length lo) 0%nat tt m) as (s' & m' & Hrun & ->).
  - rewrite partly_0. by rewrite eupdated_same.
  - intros j [] m1 Hj ->.
    destruct (lookup_lt_is_Some_2 nw j ltac:(lia)) as [x Hx].
    exists tt. eexists. split; [by apply Hbody|].
    rewrite partly_insert by (done || lia).
    by rewrite seq_S, flat_map_app; simpl; rewrite app_nil_r.
  - change (Z.of_nat 0) with 0 in Hrun. rewrite Hrun. destruct s'.
    rewrite Nat.add_0_l. by rewrite partly_all.
Qed.

Lemma CopyToPreSizedVector_run this a l lo m :
  vectors m !! this = Some l -> eigen m !! a = Some lo ->
  length lo = length l ->
  CopyToPreSizedVector this (Some a) m
  = (Returns tt,
     eupdated m a l
       (flat_map (fun j => [Load this (Z.of_nat j)]) (seq 0 (length l)))).
Proof.
  intros H Ha Hlen. unfold CopyToPreSizedVector, DRAKE_THROW_UNLESS. cbn [negb is_nullptr].
  rewrite (bind_returns _ _ m tt m) by done.
  step (rows_run _ _ _ Ha).
  step (size_run _ _ _ H).
  rewrite Hlen, Z.eqb_refl.
  rewrite (bind_returns _ _ m tt m) by done.
  rewrite <- Hlen.
  apply eigen_fill_loop; [done|done|].
  intros j x es Hx.
  step (value_at_run this l (eupdated m a _ es) j x H Hx).
  rewrite logged_eupdated. cbv beta.
  rewrite (eigen_set_run a (partly l lo j)).
  - by rewrite eupdated_eupdated, app_nil_r.
  - unfold eupdated; simpl. apply lookup_insert_eq.
  - rewrite partly_length by done. apply lookup_lt_Some in Hx. lia.
Qed.

Lemma CopyToPreSizedVector_mismatch this a l lo m :
  vectors m !! this = Some l -> eigen m !! a = Some lo ->
  length lo <> length l ->
  CopyToPreSizedVector this (Some a) m
  = (Throws (runtime_error "vec->rows() == size()"), m).
Proof.
  intros H Ha Hlen. unfold CopyToPreSizedVector, DRAKE_THROW_UNLESS. cbn [negb is_nullptr].
  rewrite (bind_returns _ _ m tt m) by done.
  step (rows_run _ _ _ Ha).
  step (size_run _ _ _ H).
  destruct (Z.eqb_spec (Z.of_nat (length lo)) (Z.of_nat (length l))); [lia|done].
Qed.

Lemma partly_lookup_from nw old j k :
  length nw = length old -> (j <= k)%nat -> partly nw old j !! k = old !! k.
Proof.
  intros Hlen Hjk. unfold partly.
  rewrite lookup_app_r by (rewrite length_take; lia).
  rewrite length_take, lookup_drop.
  destruct (decide (j <= length old)%nat) as [Hj|Hj].
  - f_equal. lia.
  - rewrite !lookup_ge_None_2 by lia. done.
Qed.

(** Reading a kept scale in round [j] gives its value at the call. *)
Lemma read_scalar_partly m a nw lo j es scale s :
  eigen m !! a = Some lo -> length nw = length lo -> (j < length lo)%nat ->
  scale_kept m a (length lo) scale s ->
  read_scalar scale (eupdated m a (partly nw lo j) es)
  = (Returns s, eupdated m a (partly nw lo j) (es ++ scale_accesses scale)).
Proof.
  intros Ha Hlen Hj Hkept.
  destruct scale as [s'|p|b k]; cbn [read_scalar scale_accesses scale_kept] in *.
  - subst s'. unfold ret. by rewrite app_nil_r.
  - destruct Hkept as (Hp & l & Hl & Hs). unfold load.
    destruct (Z.ltb_spec (lv_index p) 0) as [C|_]; [lia|].
    change (vectors (eupdated m a (partly nw lo j) es)) with (vectors m).
    rewrite Hl, Hs. unfold record, eupdated; simpl. by rewrite app_assoc.
  - destruct Hkept as (Hk & (lb & Hb & Hs) & Hlast).
    rewrite <- (Z2Nat.id k) at 1 by lia.
    rewrite app_nil_r.
    destruct (decide (b = a)) as [->|Hne].
    + assert (lb = lo) as -> by congruence.
      apply (eigen_get_run a (partly nw lo j)).
      * unfold eupdated; simpl. apply lookup_insert_eq.
      * rewrite partly_lookup_from by (done || (specialize (Hlast eq_refl); lia)).
        exact Hs.
    + apply (eigen_get_run b lb); [|done].
      unfold eupdated; simpl. by rewrite lookup_insert_ne.
Qed.

Lemma ScaleAndAddToVector_run this scale s a l lo m :
  vectors m !! this = Some l -> eigen m !! a = Some lo ->
  length lo = length l -> scale_kept m a (length lo) scale s ->
  ScaleAndAddToVector this scale (Some a) m
  = (Returns tt,
     eupdated m a (zip_with (fun y x => radd y (rmul s x)) lo l)
       (flat_map (fun j => scale_accesses scale ++ [Load this (Z.of_nat j)])
          (seq 0 (length l)))).
Proof.
  intros H Ha Hlen Hkept.
  unfold ScaleAndAddToVector, DRAKE_THROW_UNLESS. cbn [negb is_nullptr].
  rewrite (bind_returns _ _ m tt m) by done.
  step (rows_run _ _ _ Ha).
  step (size_run _ _ _ H).
  rewrite Hlen, Z.eqb_refl. cbn [negb].
  rewrite (bind_returns _ _ m tt m) by done.
  rewrite <- Hlen.
  set (nw := zip_with (fun y x => radd y (rmul s x)) lo l).
  assert (length nw = length lo) as Hz
    by (unfold nw; rewrite length_zip_with; lia).
  apply eigen_fill_loop; [done|done|].
  intros j z es Hz'. unfold nw in Hz'.
  apply lookup_zip_with_Some in Hz' as (y & x & -> & Hy & Hx).
  step (read_scalar_partly m a nw lo j es scale s Ha Hz
          (lookup_lt_Some _ _ _ Hy) Hkept).
  step (value_at_run this l (eupdated m a (partly nw lo j) _) j x H Hx).
  rewrite logged_eupdated.
  assert (eigen (eupdated m a (partly nw lo j)
                   ((es ++ scale_accesses scale) ++ [Load this (Z.of_nat j)]))
          !! a = Some (partly nw lo j)) as Hcur
    by (unfold eupdated; simpl; apply lookup_insert_eq).
  assert (partly nw lo j !! j = Some y) as Hy' by (by rewrite partly_lookup).
  step (eigen_get_run a _ _ j y Hcur Hy').
  rewrite (eigen_set_run a (partly nw lo j)).
  - by rewrite eupdated_eupdated, app_nil_r, <- !app_assoc.
  - done.
  - rewrite partly_length by done. apply lookup_lt_Some in Hy. lia.
Qed.

Lemma ScaleAndAddToVector_mismatch this scale a l lo m :
  vectors m !! this = Some l -> eigen m !! a = Some lo ->
  length lo <> length l ->
  ScaleAndAddToVector this scale (Some a) m
  = (Throws (out_of_range "Addends must be the same size."), m).
Proof.
  intros H Ha Hlen. unfold ScaleAndAddToVector, DRAKE_THROW_UNLESS. cbn [negb is_nullptr].
  rewrite (bind_returns _ _ m tt m) by done.
  step (rows_run _ _ _ Ha).
  step (size_run _ _ _ H).
  destruct (Z.eqb_spec (Z.of_nat (length lo)) (Z.of_nat (length l))); [lia|done].
Qed.

(** ** Computations that write no VectorBase object *)

Lemma read_only_ret {A : Type} (a : A) : read_only (ret a).
Proof. done. Qed.

Lemma read_only_throw {A : Type} e : read_only (@throw A e).
Proof. done. Qed.

Lemma read_only_undefined {A : Type} : read_only (@undefined A).
Proof. done. Qed.

Lemma read_only_bind {A B : Type} (c : M A) (k : A -> M B) :
  read_only c -> (forall a, read_only (k a)) -> read_only (bind c k).
Proof.
  intros Hc Hk m. unfold bind. specialize (Hc m).
  destruct (c m) as [[a|e|] m']; simpl in *; [|done|done].
  by rewrite Hk.
Qed.

Lemma read_only_for_loop {S : Type} (body : Z -> S -> M S) count :
  (forall i s, read_only (body i s)) ->
  forall i s, read_only (for_loop count i body s).
Proof.
  intros Hb. induction count as [|count IH]; intros i s; simpl.
  - apply read_only_ret.
  - apply read_only_bind; [apply Hb|]. intros s'. apply IH.
Qed.

Lemma read_only_DRAKE_THROW_UNLESS condition holds :
  read_only (DRAKE_THROW_UNLESS condition holds).
Proof. by destruct holds. Qed.

Lemma read_only_size a : read_only (size a).
Proof. intros m. unfold size. by destruct (vectors m !! a). Qed.

Lemma read_only_value_at a i : read_only (value_at a i).
Proof.
  unfold value_at, GetAtIndex.
  apply read_only_bind.
  - apply read_only_bind; [apply read_only_size|]. intros sz.
    apply read_only_bind; [apply read_only_DRAKE_THROW_UNLESS|]. intros _.
    destruct (i <? 0); [apply read_only_undefined|apply read_only_ret].
  - intros p m. unfold load.
    destruct (lv_index p <? 0); [done|].
    destruct (vectors m !! lv_obj p) as [l|]; [|done].
    by destruct (l !! Z.to_nat (lv_index p)).
Qed.

Create HintDb read_only.
#[local] Hint Resolve read_only_ret read_only_throw read_only_undefined
  read_only_DRAKE_THROW_UNLESS read_only_size read_only_value_at : read_only.

(** Close a goal by a hint, or else split a sequence or a loop into its
    parts. *)
Ltac prove_read_only :=
  repeat first [ solve [auto with read_only]
               | apply read_only_bind; [|intros ?]
               | apply read_only_for_loop; intros ? ? ].

Lemma read_only_rows vec : read_only (rows vec).
Proof.
  destruct vec as [a|]; [|done]. intros m. simpl.
  by destruct (eigen m !! a).
Qed.

Lemma read_only_eigen_get vec i : read_only (eigen_get vec i).
Proof.
  destruct vec as [a|]; [|done]. intros m. simpl.
  destruct (i <? 0); [done|].
  destruct (eigen m !! a) as [l|]; [|done].
  by destruct (l !! Z.to_nat i).
Qed.

Lemma read_only_eigen_set vec i x : read_only (eigen_set vec i x).
Proof.
  destruct vec as [a|]; [|done]. intros m. simpl.
  destruct (i <? 0); [done|].
  destruct (eigen m !! a) as [l|]; [|done].
  by destruct (Nat.ltb _ _).
Qed.

#[local] Hint Resolve read_only_rows read_only_eigen_get read_only_eigen_set
  : read_only.

Lemma read_only_CopyToPreSizedVector this vec :
  read_only (CopyToPreSizedVector this vec).
Proof. unfold CopyToPreSizedVector, for_int. prove_read_only. Qed.

Lemma read_only_operator_shl os vec : read_only (operator_shl os vec).
Proof. unfold operator_shl, for_int. prove_read_only. Qed.

(** ** Rendering *)

Lemma append_cons c (s t : string) :
  String.append (String c s) t = String c (String.append s t).
Proof. reflexivity. Qed.

Lemma append_assoc (s1 s2 s3 : string) :
  String.append (String.append s1 s2) s3 = String.append s1 (String.append s2 s3).
Proof.
  induction s1 as [|c s1 IH]; [reflexivity|]. by rewrite !append_cons, IH.
Qed.

Lemma append_empty_r (s : string) : String.append s "" = s.
Proof.
  induction s as [|c s IH]; [reflexivity|]. by rewrite append_cons, IH.
Qed.

Lemma concat_snoc sep (xs : list string) x :
  String.concat sep (xs ++ [x])
  = match xs with
    | [] => x
    | _ => String.append (String.concat sep xs) (String.append sep x)
    end.
Proof.
  induction xs as [|y xs IH]; [done|].
  destruct xs as [|z xs]; [done|].
  change (String.concat sep ((y :: z :: xs) ++ [x]))
    with (String.append y (String.append sep (String.concat sep ((z :: xs) ++ [x])))).
  rewrite IH.
  change (String.concat sep (y :: z :: xs))
    with (String.append y (String.append sep (String.concat sep (z :: xs)))).
  by rewrite !append_assoc.
Qed.

Lemma listing_snoc l x j :
  length l = j ->
  listing (l ++ [x])
  = String.append (if 0 <? Z.of_nat j then String.append (listing l) ", "
                   else listing l)
      (show x).
Proof.
  intros <-. unfold listing. rewrite map_app. simpl. rewrite concat_snoc.
  destruct l as [|y l]; [done|].
  replace (0 <? Z.of_nat (length (y :: l))) with true
    by (symmetry; apply Z.ltb_lt; simpl; lia).
  by rewrite append_assoc.
Qed.

Lemma operator_shl_run os vec l m :
  vectors m !! vec = Some l ->
  operator_shl os vec m
  = (Returns (String.append os (String.append "[" (String.append (listing l) "]"))),
     logged m (flat_map (fun j => [Load vec (Z.of_nat j)]) (seq 0 (length l)))).
Proof.
  intros H. unfold operator_shl.
  step (size_run _ _ _ H).
  unfold for_int. rewrite Nat2Z.id.
  destruct (for_loop_inv
              (fun j s m' =>
                 s = String.append (String.append os "[") (listing (take j l))
                 /\ m' = logged m (flat_map (fun j => [Load vec (Z.of_nat j)])
                                     (seq 0 j)))
              (fun i os =>
                 let os := if 0 <? i then String.append os ", " else os in
                 x <- value_at vec i ;; ret (String.append os (show x)))
              (length l) 0%nat (String.append os "[") m)
    as (s' & m' & Hrun & -> & ->).
  - split; [|by rewrite logged_nil].
    rewrite take_0. unfold listing. simpl. by rewrite append_empty_r.
  - intros j s m1 Hj [-> ->].
    destruct (lookup_lt_is_Some_2 l j ltac:(lia)) as [x Hx].
    eexists _, _. split.
    + cbv zeta beta.
      step (value_at_run vec l (logged m _) j x H Hx).
      reflexivity.
    + split.
      * rewrite (take_S_r _ _ _ Hx).
        rewrite (listing_snoc _ _ j) by (rewrite length_take; lia).
        destruct (0 <? Z.of_nat j); by rewrite !append_assoc.
      * rewrite logged_logged. by rewrite seq_S, flat_map_app; simpl.
  - change (Z.of_nat 0) with 0 in Hrun.
    step Hrun. unfold ret.
    rewrite Nat.add_0_l, take_ge by lia. by rewrite !append_assoc.
Qed.

(** ** Bounds *)

Lemma resize0_run a ld (m : memory) :
  eigend m !! a = Some ld ->
  resize0 (Some a) m
  = (Returns tt, Memory (vectors m) (eigen m) (<[a := []]> (eigend m)) (trace m)).
Proof. intros H. unfold resize0. by rewrite H. Qed.

Lemma resize0_never_throws vec (m : memory) e :
  fst (resize0 vec m) <> Throws e.
Proof.
  destruct vec as [a|]; simpl; [|done].
  by destruct (eigend m !! a).
Qed.

(** ** Counting accesses *)

Lemma occurrences_app es es' e :
  occurrences (es ++ es') e = (occurrences es e + occurrences es' e)%nat.
Proof. apply count_occ_app. Qed.

Lemma occurrences_rounds_none (f : nat -> list event) e n :
  (forall j, (j < n)%nat -> occurrences (f j) e = 0%nat) ->
  occurrences (flat_map f (seq 0 n)) e = 0%nat.
Proof.
  induction n as [|n IH]; intros H; [done|].
  rewrite seq_S, flat_map_app, occurrences_app. simpl. rewrite app_nil_r.
  rewrite IH by (intros; apply H; lia). rewrite H by lia. done.
Qed.

(** An access made [c] times in round [j0] and in no other round is made
    [c] times by the whole loop. *)
Lemma occurrences_rounds_one (f : nat -> list event) e j0 c n :
  (forall j, j <> j0 -> occurrences (f j) e = 0%nat) ->
  occurrences (f j0) e = c -> (j0 < n)%nat ->
  occurrences (flat_map f (seq 0 n)) e = c.
Proof.
  intros Hother Hj0. induction n as [|n IH]; intros Hlt; [lia|].
  rewrite seq_S, flat_map_app, occurrences_app. simpl. rewrite app_nil_r.
  destruct (decide (j0 = n)) as [->|Hne].
  - rewrite occurrences_rounds_none by (intros; apply Hother; lia). by rewrite Hj0.
  - rewrite IH by lia. rewrite Hother by done. lia.
Qed.

Lemma occurrences_cons_same e es : occurrences (e :: es) e = Datatypes.S (occurrences es e).
Proof. by apply count_occ_cons_eq. Qed.

Lemma occurrences_cons_other e' e es :
  e' <> e -> occurrences (e' :: es) e = occurrences es e.
Proof. by apply count_occ_cons_neq. Qed.







(** ** One operand, and two *)

Lemma sized_like_one m l scale rhs lb :
  vectors m !! rhs = Some lb -> length lb = length l ->
  sized_like m l [(scale, rhs)].
Proof. intros H Hlen. constructor; [by exists lb|constructor]. Qed.

Lemma PlusEqScaled1_run this scale rhs l lb m :
  vectors m !! this = Some l -> vectors m !! rhs = Some lb ->
  length lb = length l ->
  PlusEqScaled1 this scale rhs m
  = (Returns this,
     updated m this (zip_with (fun x y => radd x (rmul scale y)) l lb)
       (flat_map (round_accesses this [(scale, rhs)]) (seq 0 (length l)))).
Proof.
  intros H Hb Hlen. unfold PlusEqScaled1.
  rewrite (PlusEqScaled_run this _ l m H (sized_like_one m l scale rhs lb Hb Hlen)).
  do 2 f_equal. apply list_eq. intros i.
  rewrite list_lookup_imap, lookup_zip_with.
  destruct (l !! i) as [x|] eqn:Hx; [|done]. simpl.
  destruct (lookup_lt_is_Some_2 lb i) as [y Hy];
    [apply lookup_lt_Some in Hx; lia|].
  rewrite Hy. simpl. unfold accumulated. simpl.
  rewrite (element_lookup _ _ _ _ _ Hb Hy). f_equal. ring.
Qed.

(** ** The claims *)

(** C1. [PlusEqScaled] on a list of operands checks the size of every
    operand before it writes anything: when some operand of the list, at
    whatever place, has a size other than [size()], the call throws
    [std::out_of_range] and the memory, this vector included, is exactly as
    it was before the call. *)
Theorem PlusEqScaled_mismatch_leaves_untouched this ops l m :
  vectors m !! this = Some l ->
  Forall (fun operand : T * address => is_Some (vectors m !! snd operand)) ops ->
  Exists (fun operand : T * address =>
            exists lk, vectors m !! snd operand = Some lk /\ length lk <> length l)
    ops ->
  PlusEqScaled this ops m
  = (Throws (out_of_range "Addends must be the same size."), m).
Proof.
  intros H Hall Hex. unfold PlusEqScaled.
  apply bind_throws. by apply (check_sizes_fail this ops l).
Qed.


(** C4, as amended.  When the second operand is an object other than this
    vector (the first operand may be this vector itself) and both operands
    have the size of this vector, accumulating the two operands in one call
    leaves every vector with the same contents as accumulating the first and
    then the second. *)
Theorem PlusEqScaled_pair_is_sequential this b1 b2 s1 s2 l l1 l2 m :
  vectors m !! this = Some l ->
  vectors m !! b1 = Some l1 -> vectors m !! b2 = Some l2 ->
  length l1 = length l -> length l2 = length l ->
  b2 <> this ->
  exists m_multi m_first m_seq,
    PlusEqScaled this [(s1, b1); (s2, b2)] m = (Returns this, m_multi)
    /\ PlusEqScaled1 this s1 b1 m = (Returns this, m_first)
    /\ PlusEqScaled1 this s2 b2 m_first = (Returns this, m_seq)
    /\ vectors m_multi = vectors m_seq.
Proof.
  intros H H1 H2 Hl1 Hl2 Hne.
  eexists _, _, _. split; [|split; [|split]].
  - apply (PlusEqScaled_run this _ l m H).
    constructor; [by exists l1|]. by apply (sized_like_one m l s2 b2 l2).
  - by apply (PlusEqScaled1_run this s1 b1 l l1).
  - eapply (PlusEqScaled1_run this s2 b2).
    + apply updated_lookup.
    + unfold updated; simpl. rewrite lookup_insert_ne by done. exact H2.
    + rewrite length_zip_with. lia.
  - unfold updated; simpl. rewrite insert_insert_eq. f_equal.
    apply list_eq. intros i.
    rewrite list_lookup_imap, !lookup_zip_with.
    destruct (l !! i) as [x|] eqn:Hx; [|done]. simpl.
    destruct (lookup_lt_is_Some_2 l1 i) as [y1 Hy1];
      [apply lookup_lt_Some in Hx; lia|].
    destruct (lookup_lt_is_Some_2 l2 i) as [y2 Hy2];
      [apply lookup_lt_Some in Hx; lia|].
    rewrite Hy1, Hy2. simpl. unfold accumulated. simpl.
    rewrite (element_lookup _ _ _ _ _ H1 Hy1), (element_lookup _ _ _ _ _ H2 Hy2).
    f_equal. ring.
Qed.

(** C5. [SetFrom] throws, and changes nothing, when the other vector has
    another size; when the sizes agree it returns, and then [CopyToVector]
    on this vector and on the other give the same dense vector, which holds
    the elements the other vector had. *)
Theorem SetFrom_copies this value l lv m :
  vectors m !! this = Some l -> vectors m !! value = Some lv ->
  (length lv <> length l ->
   SetFrom this value m = (Throws (runtime_error "value.size() == size()"), m))
  /\ (length lv = length l ->
      exists m1,
        SetFrom this value m = (Returns tt, m1)
        /\ fst (CopyToVector this m1) = Returns lv
        /\ fst (CopyToVector value m1) = Returns lv).
Proof.
  intros H Hv. split; intros Hlen.
  - by apply (SetFrom_mismatch this value l lv).
  - eexists. split; [by apply SetFrom_run|].
    split.
    + rewrite (CopyToVector_run this lv); [done|apply updated_lookup].
    + rewrite (CopyToVector_run value lv); [done|].
      unfold updated; simpl.
      destruct (decide (this = value)) as [->|Hne].
      * apply lookup_insert_eq.
      * by rewrite lookup_insert_ne.
Qed.

(** C6. For a vector of any size N, zero included, [SetZero] returns and a
    following [CopyToVector] returns N zeros; for the empty vector that is
    the empty dense vector. *)
Theorem SetZero_then_CopyToVector this l m :
  vectors m !! this = Some l ->
  exists m1 m2,
    SetZero this m = (Returns tt, m1)
    /\ CopyToVector this m1 = (Returns (replicate (length l) rO), m2)
    /\ (l = [] -> CopyToVector this m1 = (Returns [], m2)).
Proof.
  intros H. eexists _, _. split; [by apply SetZero_run|].
  assert (forall es,
            CopyToVector this (updated m this (replicate (length l) rO) es)
            = (Returns (replicate (length l) rO),
               logged (updated m this (replicate (length l) rO) es)
                 (flat_map (fun j => [Load this (Z.of_nat j)])
                    (seq 0 (length (replicate (length l) rO)))))) as Hc.
  { intros es. apply CopyToVector_run, updated_lookup. }
  split; [apply Hc|].
  intros ->. apply Hc.
Qed.

(** C7. [CopyToPreSizedVector] throws for a null output and throws for an
    output whose row count is not [size()]; the two exceptions name
    different failed conditions, so a caller can tell them apart.  However
    the call ends, no VectorBase object is changed; when it returns, the
    output holds the elements of this vector. *)
Theorem CopyToPreSizedVector_checks_then_copies this :
  (forall m,
     CopyToPreSizedVector this None m
     = (Throws (runtime_error "vec != nullptr"), m))
  /\ (forall a l lo m,
        vectors m !! this = Some l -> eigen m !! a = Some lo ->
        length lo <> length l ->
        CopyToPreSizedVector this (Some a) m
        = (Throws (runtime_error "vec->rows() == size()"), m))
  /\ runtime_error "vec != nullptr" <> runtime_error "vec->rows() == size()"
  /\ (forall vec m,
        vectors (snd (CopyToPreSizedVector this vec m)) = vectors m)
  /\ (forall a l lo m,
        vectors m !! this = Some l -> eigen m !! a = Some lo ->
        length lo = length l ->
        exists m',
          CopyToPreSizedVector this (Some a) m = (Returns tt, m')
          /\ eigen m' !! a = Some l).
Proof.
  split; [done|].
  split; [intros a l lo m H Ha Hlen;
          by apply (CopyToPreSizedVector_mismatch this a l lo)|].
  split; [done|]. split; [intros vec; apply read_only_CopyToPreSizedVector|].
  intros a l lo m H Ha Hlen. eexists.
  split; [by apply (CopyToPreSizedVector_run this a l lo)|].
  unfold eupdated; simpl. apply lookup_insert_eq.
Qed.

(** C8, as amended.  When the scalar that [scale] refers to is stored
    outside the output, or is the last element of the output,
    [ScaleAndAddToVector] adds to element [i] of the output the value that
    scalar has at the call times [GetAtIndex(i)], for every [i], and changes
    no VectorBase object.  Whatever [scale] refers to, the call throws
    [std::out_of_range] when the output's row count is not [size()], and
    throws for a null output; in both cases the memory is as it was. *)
Theorem ScaleAndAddToVector_adds_scaled this scale :
  (forall a l lo m s,
     vectors m !! this = Some l -> eigen m !! a = Some lo ->
     length lo = length l ->
     scale_kept m a (length lo) scale s ->
     exists m',
       ScaleAndAddToVector this scale (Some a) m = (Returns tt, m')
       /\ eigen m' !! a
          = Some (zip_with (fun y x => radd y (rmul s x)) lo l)
       /\ vectors m' = vectors m)
  /\ (forall a l lo m,
        vectors m !! this = Some l -> eigen m !! a = Some lo ->
        length lo <> length l ->
        ScaleAndAddToVector this scale (Some a) m
        = (Throws (out_of_range "Addends must be the same size."), m))
  /\ (forall m,
        ScaleAndAddToVector this scale None m
        = (Throws (runtime_error "vec != nullptr"), m)).
Proof.
  split; [|split; [|done]];
    [|intros a l lo m H Ha Hlen;
      by apply (ScaleAndAddToVector_mismatch this scale a l lo)].
  intros a l lo m s H Ha Hlen Hkept. eexists.
  split; [by apply (ScaleAndAddToVector_run this scale s a l lo)|].
  split; [|done]. unfold eupdated; simpl. apply lookup_insert_eq.
Qed.

(** C9. Streaming a vector appends an opening bracket, the elements in
    index order separated by a comma and a space, and a closing bracket;
    for the empty vector that is ["[]"].  Each element is read exactly
    once, in index order, and however the call ends no VectorBase object
    is changed. *)
Theorem operator_shl_renders os vec :
  (forall l m,
     vectors m !! vec = Some l ->
     operator_shl os vec m
     = (Returns (String.append os
                   (String.append "[" (String.append (listing l) "]"))),
        logged m (flat_map (fun j => [Load vec (Z.of_nat j)]) (seq 0 (length l))))
     /\ forall i, (i < length l)%nat ->
            occurrences
              (flat_map (fun j => [Load vec (Z.of_nat j)]) (seq 0 (length l)))
              (Load vec (Z.of_nat i)) = 1%nat)
  /\ (forall m,
        vectors m !! vec = Some [] ->
        fst (operator_shl os vec m) = Returns (String.append os "[]"))
  /\ (forall m, vectors (snd (operator_shl os vec m)) = vectors m).
Proof.
  split; [|split].
  - intros l m H. split; [by apply operator_shl_run|].
    intros i Hi.
    apply occurrences_rounds_one with (j0 := i); [| |done].
    + intros j Hj. apply occurrences_cons_other.
      intros [= E]. apply Nat2Z.inj in E. done.
    + by rewrite occurrences_cons_same.
  - intros m H. by rewrite (operator_shl_run os vec [] m H).
  - apply read_only_operator_shl.
Qed.

(** C10. The default [GetElementBounds] has no guard on its pointers: with
    a null [lower] or a null [upper] its behaviour is undefined, and it
    never throws, whereas [CopyToPreSizedVector] and [ScaleAndAddToVector]
    throw for a null output.  With two valid pointers it returns and both
    outputs have length zero, whatever this vector holds. *)
Theorem GetElementBounds_unguarded this :
  (forall lower upper m,
     is_nullptr lower || is_nullptr upper = true ->
     fst (GetElementBounds this lower upper m) = Undefined)
  /\ (forall lower upper m e,
        fst (GetElementBounds this lower upper m) <> Throws e)
  /\ (forall scale m,
        fst (CopyToPreSizedVector this None m)
        = Throws (runtime_error "vec != nullptr")
        /\ fst (ScaleAndAddToVector this scale None m)
           = Throws (runtime_error "vec != nullptr"))
  /\ (forall a b m,
        is_Some (eigend m !! a) -> is_Some (eigend m !! b) ->
        exists m',
          GetElementBounds this (Some a) (Some b) m = (Returns tt, m')
          /\ eigend m' !! a = Some []
          /\ eigend m' !! b = Some []
          /\ vectors m' = vectors m).
Proof.
  split; [|split; [|split; [done|]]].
  - intros lower upper m Hnull. unfold GetElementBounds, bind.
    destruct lower as [a|]; [|done]. simpl.
    destruct (eigend m !! a); [|done].
    destruct upper as [b|]; [done|done].
  - intros lower upper m e. unfold GetElementBounds, bind.
    pose proof (resize0_never_throws lower m e) as Hl.
    destruct (resize0 lower m) as [[[]|e'|] m1]; simpl in *; [|done|done].
    apply resize0_never_throws.
  - intros a b m [la Ha] [lb Hb]. unfold GetElementBounds.
    step (resize0_run a la m Ha).
    destruct (decide (a = b)) as [->|Hne].
    + eexists. split; [apply (resize0_run b []); simpl; apply lookup_insert_eq|].
      simpl. by rewrite !lookup_insert_eq.
    + eexists. split.
      * apply (resize0_run b lb). simpl. by rewrite lookup_insert_ne.
      * simpl. rewrite lookup_insert_eq, lookup_insert_ne by done.
        by rewrite lookup_insert_eq.
Qed.

(** ** Further properties of the member functions *)

Lemma GetAtIndex_at_or_past_size this l m index :
  vectors m !! this = Some l -> Z.of_nat (length l) <= index ->
  GetAtIndex this index m = (Throws (runtime_error "index < size()"), m).
Proof.
  intros H Hi. unfold GetAtIndex. step (size_run _ _ _ H).
  apply bind_throws. unfold DRAKE_THROW_UNLESS.
  destruct (Z.ltb_spec index (Z.of_nat (length l))); [lia|done].
Qed.

Lemma SetAtIndex_at_or_past_size this l m index v :
  vectors m !! this = Some l -> Z.of_nat (length l) <= index ->
  SetAtIndex this index v m = (Throws (runtime_error "index < size()"), m).
Proof.
  intros H Hi. unfold SetAtIndex.
  apply bind_throws. by apply (GetAtIndex_at_or_past_size this l).
Qed.

(** X1. Writing an element with [SetAtIndex] at an index from 0 up to
    [size()] - 1 returns; afterwards reading that index gives the value
    written, reading any other index from 0 up to [size()] - 1 gives what
    was there before, and every other vector is as it was. *)
Theorem SetAtIndex_then_read this l m index v :
  vectors m !! this = Some l ->
  0 <= index < Z.of_nat (length l) ->
  exists m1,
    SetAtIndex this index v m = (Returns tt, m1)
    /\ fst (value_at this index m1) = Returns v
    /\ (forall j x, j <> index -> l !! Z.to_nat j = Some x -> 0 <= j ->
          fst (value_at this j m1) = Returns x)
    /\ (forall a, a <> this -> vectors m1 !! a = vectors m !! a).
Proof.
  intros H Hi.
  destruct (Z_of_nat_complete index ltac:(lia)) as [n ->].
  assert (n < length l)%nat as Hn by lia.
  eexists. split; [by apply SetAtIndex_run|].
  split; [|split].
  - rewrite (value_at_run this (<[n := v]> l) _ _ v); [done| |].
    + apply updated_lookup.
    + by apply list_lookup_insert_eq.
  - intros j x Hne Hx Hj.
    destruct (Z_of_nat_complete j Hj) as [k ->]. rewrite Nat2Z.id in Hx.
    rewrite (value_at_run this (<[n := v]> l) _ _ x); [done| |].
    + apply updated_lookup.
    + rewrite list_lookup_insert_ne; [done|]. intros E. apply Hne. by rewrite E.
  - intros a Ha. unfold updated; simpl. by rewrite lookup_insert_ne.
Qed.

(** X2. [SetAtIndex] at an index at or past [size()] throws the error of
    [GetAtIndex] and writes nothing: the memory is as it was. *)
Theorem SetAtIndex_out_of_range_untouched this l m index v :
  vectors m !! this = Some l -> Z.of_nat (length l) <= index ->
  SetAtIndex this index v m = (Throws (runtime_error "index < size()"), m)
  /\ GetAtIndex this index m = (Throws (runtime_error "index < size()"), m).
Proof.
  intros H Hi. split; [by apply (SetAtIndex_at_or_past_size this l)|].
  by apply (GetAtIndex_at_or_past_size this l).
Qed.

Lemma SetFromVector_run this value l lv m :
  vectors m !! this = Some l -> eigen m !! value = Some lv ->
  length lv = length l ->
  SetFromVector this value m
  = (Returns tt,
     updated m this lv
       (flat_map (fun j => [Store this (Z.of_nat j)]) (seq 0 (length l)))).
Proof.
  intros H Hv Hlen. unfold SetFromVector.
  step (rows_run _ _ _ Hv). step (size_run _ _ _ H).
  rewrite Hlen, Z.eqb_refl. unfold DRAKE_THROW_UNLESS.
  rewrite (bind_returns _ _ m tt m) by done.
  apply fill_loop; [done|done|].
  intros j x es Hx.
  step (eigen_get_run value lv (updated m this (partly lv l j) es) j x Hv Hx).
  apply SetAtIndex_partly; [done|apply lookup_lt_Some in Hx; lia].
Qed.

Lemma SetFromVector_mismatch this value l lv m :
  vectors m !! this = Some l -> eigen m !! value = Some lv ->
  length lv <> length l ->
  SetFromVector this value m
  = (Throws (runtime_error "value.rows() == size()"), m).
Proof.
  intros H Hv Hlen. unfold SetFromVector.
  step (rows_run _ _ _ Hv). step (size_run _ _ _ H).
  destruct (Z.eqb_spec (Z.of_nat (length lv)) (Z.of_nat (length l))); [lia|done].
Qed.

(** X3. [SetFromVector] throws and changes nothing when the Eigen vector
    has a row count other than [size()]; otherwise it returns, a following
    [CopyToVector] gives back the elements of the Eigen vector, and no
    Eigen vector is changed. *)
Theorem SetFromVector_then_CopyToVector this value l lv m :
  vectors m !! this = Some l -> eigen m !! value = Some lv ->
  (length lv <> length l ->
   SetFromVector this value m
   = (Throws (runtime_error "value.rows() == size()"), m))
  /\ (length lv = length l ->
      exists m1,
        SetFromVector this value m = (Returns tt, m1)
        /\ fst (CopyToVector this m1) = Returns lv
        /\ eigen m1 = eigen m).
Proof.
  intros H Hv. split; intros Hlen.
  - by apply (SetFromVector_mismatch this value l lv).
  - eexists. split; [by apply SetFromVector_run|].
    split; [|done].
    rewrite (CopyToVector_run this lv); [done|apply updated_lookup].
Qed.

(** X4. Export then import is the identity: after [CopyToPreSizedVector]
    into an Eigen vector of [size()] rows, that Eigen vector holds what
    [CopyToVector] returns, and [SetFromVector] from it returns and leaves
    every vector with the elements it had. *)
Theorem CopyToPreSizedVector_then_SetFromVector this e l lo m :
  vectors m !! this = Some l -> eigen m !! e = Some lo ->
  length lo = length l ->
  exists m1 m2 dense,
    CopyToPreSizedVector this (Some e) m = (Returns tt, m1)
    /\ fst (CopyToVector this m) = Returns dense
    /\ eigen m1 !! e = Some dense
    /\ SetFromVector this e m1 = (Returns tt, m2)
    /\ vectors m2 = vectors m.
Proof.
  intros H He Hlen. eexists _, _, l.
  split; [by apply (CopyToPreSizedVector_run this e l lo)|].
  split; [by rewrite (CopyToVector_run this l m H)|].
  split; [unfold eupdated; simpl; apply lookup_insert_eq|].
  split.
  - apply (SetFromVector_run this e l l); [done| |done].
    unfold eupdated; simpl. apply lookup_insert_eq.
  - unfold updated, eupdated; simpl. by apply insert_id.
Qed.

(** X5. Assigning a vector to itself with [SetFrom] returns and leaves
    every vector with the elements it had. *)
Theorem SetFrom_self this l m :
  vectors m !! this = Some l ->
  exists m1, SetFrom this this m = (Returns tt, m1) /\ vectors m1 = vectors m.
Proof.
  intros H. eexists. split; [by apply (SetFrom_run this this l l)|].
  unfold updated; simpl. by apply insert_id.
Qed.

(** *** Algebra of scaled accumulation *)

Lemma imap_same (f : nat -> T -> T) (l : list T) :
  (forall i x, l !! i = Some x -> f i x = x) -> imap f l = l.
Proof.
  intros Hf. apply list_eq. intros i. rewrite list_lookup_imap.
  destruct (l !! i) as [x|] eqn:Hx; [|done]. simpl. by rewrite Hf.
Qed.

Lemma element_updated_other m this L es a i :
  a <> this -> element (updated m this L es) a i = element m a i.
Proof.
  intros Hne. unfold element, updated; simpl. by rewrite lookup_insert_ne.
Qed.

Lemma scaled_sum_updated m this L es ops i :
  Forall (fun operand : T * address => snd operand <> this) ops ->
  scaled_sum (updated m this L es) ops i = scaled_sum m ops i.
Proof.
  induction 1 as [|op ops Hop _ IH]; [done|].
  simpl. by rewrite IH, element_updated_other.
Qed.

Lemma scaled_sum_Permutation m ops ops' i :
  Permutation ops ops' -> scaled_sum m ops i = scaled_sum m ops' i.
Proof.
  induction 1 as [|op ops ops' _ IH|op1 op2 ops|ops1 ops2 ops3 _ IH1 _ IH2];
    simpl.
  - done.
  - by rewrite IH.
  - ring.
  - by rewrite IH1.
Qed.

Lemma PlusEqScaled_contents this ops l m :
  vectors m !! this = Some l -> sized_like m l ops ->
  exists m1,
    PlusEqScaled this ops m = (Returns this, m1)
    /\ vectors m1
       = <[this := imap (fun i x => radd x (scaled_sum m ops i)) l]> (vectors m).
Proof.
  intros H Hops. eexists. split; [by apply PlusEqScaled_run|].
  unfold updated; simpl. f_equal. apply imap_ext.
  intros i x _. by rewrite accumulated_scaled_sum.
Qed.

(** X6. [A += B] returns and leaves [A[i] + B[i]] in every element of A,
    and [A -= B] leaves [A[i] - B[i]], with the elements B had at the call
    (B may be A itself). *)
Theorem operator_plus_eq_minus_eq_elementwise this rhs l lb m :
  vectors m !! this = Some l -> vectors m !! rhs = Some lb ->
  length lb = length l ->
  (exists m1,
     operator_plus_eq this rhs m = (Returns this, m1)
     /\ vectors m1 = <[this := zip_with radd l lb]> (vectors m))
  /\ (exists m1,
        operator_minus_eq this rhs m = (Returns this, m1)
        /\ vectors m1 = <[this := zip_with rsub l lb]> (vectors m)).
Proof.
  intros H Hb Hlen. split; eexists.
  - split; [by apply (PlusEqScaled1_run this rI rhs l lb)|].
    unfold updated; simpl. f_equal. apply zip_with_ext; [|done|done].
    intros x y. ring.
  - split; [by apply (PlusEqScaled1_run this (ropp rI) rhs l lb)|].
    unfold updated; simpl. f_equal. apply zip_with_ext; [|done|done].
    intros x y. ring.
Qed.

(** X7. In exact scalar arithmetic (the scalars form a commutative ring):
    when B is an object other than A and has the size of A, [A += B]
    followed by [A -= B] returns and leaves every vector with the elements
    it had. *)
Theorem operator_plus_eq_then_minus_eq this rhs l lb m :
  vectors m !! this = Some l -> vectors m !! rhs = Some lb ->
  length lb = length l -> rhs <> this ->
  exists m1 m2,
    operator_plus_eq this rhs m = (Returns this, m1)
    /\ operator_minus_eq this rhs m1 = (Returns this, m2)
    /\ vectors m2 = vectors m.
Proof.
  intros H Hb Hlen Hne. eexists _, _.
  split; [by apply (PlusEqScaled1_run this rI rhs l lb)|].
  split.
  - eapply (PlusEqScaled1_run this (ropp rI) rhs).
    + apply updated_lookup.
    + unfold updated; simpl. rewrite lookup_insert_ne by done. exact Hb.
    + rewrite length_zip_with. lia.
  - unfold updated; simpl. rewrite insert_insert_eq. apply insert_id.
    rewrite H. f_equal. apply list_eq. intros i.
    rewrite !lookup_zip_with.
    destruct (l !! i) as [x|] eqn:Hx; [|done]. simpl.
    destruct (lookup_lt_is_Some_2 lb i) as [y Hy];
      [apply lookup_lt_Some in Hx; lia|].
    rewrite Hy. simpl. f_equal. ring.
Qed.

(** X8. In exact scalar arithmetic (the scalars form a commutative ring):
    [A -= A] returns and leaves zero in every element of A. *)
Theorem operator_minus_eq_self_zeroes this l m :
  vectors m !! this = Some l ->
  exists m1,
    operator_minus_eq this this m = (Returns this, m1)
    /\ vectors m1 !! this = Some (replicate (length l) rO).
Proof.
  intros H. eexists.
  split; [by apply (PlusEqScaled1_run this (ropp rI) this l l)|].
  rewrite updated_lookup. f_equal. apply list_eq. intros i.
  rewrite lookup_zip_with.
  destruct (l !! i) as [x|] eqn:Hx; simpl.
  - rewrite lookup_replicate_2 by (by apply lookup_lt_Some in Hx).
    f_equal. ring.
  - symmetry. apply lookup_replicate_None. apply lookup_ge_None in Hx. lia.
Qed.

(** X9. In exact scalar arithmetic (the scalars form a commutative ring)
    the order of the operands of [PlusEqScaled] does not matter for the
    result: two lists that are permutations of each other, the operands
    all of the size of this vector, leave the same elements in every
    vector (an operand may be this vector itself). *)
Theorem PlusEqScaled_operand_order this ops ops' l m :
  vectors m !! this = Some l -> sized_like m l ops ->
  Permutation ops ops' ->
  exists m1 m2,
    PlusEqScaled this ops m = (Returns this, m1)
    /\ PlusEqScaled this ops' m = (Returns this, m2)
    /\ vectors m1 = vectors m2.
Proof.
  intros H Hops Hperm.
  assert (sized_like m l ops') as Hops'
    by (unfold sized_like in *; by rewrite <- Hperm).
  destruct (PlusEqScaled_contents this ops l m H Hops) as (m1 & Hr1 & Hv1).
  destruct (PlusEqScaled_contents this ops' l m H Hops') as (m2 & Hr2 & Hv2).
  exists m1, m2. split; [done|]. split; [done|].
  rewrite Hv1, Hv2. f_equal. apply imap_ext.
  intros i x _. by rewrite (scaled_sum_Permutation m ops ops' i Hperm).
Qed.

(** X10. In exact scalar arithmetic (the scalars form a commutative ring):
    [PlusEqScaled] with no operand, and with one operand of scale zero,
    returns and leaves every vector with the elements it had; with no
    operand it still reads and rewrites each element of this vector
    once. *)
Theorem PlusEqScaled_nothing_to_add this l m :
  vectors m !! this = Some l ->
  (exists m1,
     PlusEqScaled this [] m = (Returns this, m1)
     /\ vectors m1 = vectors m
     /\ trace m1
        = trace m
          ++ flat_map (fun j => [Load this (Z.of_nat j); Store this (Z.of_nat j)])
               (seq 0 (length l)))
  /\ (forall rhs lb,
        vectors m !! rhs = Some lb -> length lb = length l ->
        exists m1,
          PlusEqScaled1 this rO rhs m = (Returns this, m1)
          /\ vectors m1 = vectors m).
Proof.
  intros H. split.
  - eexists. split; [apply (PlusEqScaled_run this [] l m H); constructor|].
    split; [|done].
    unfold updated; simpl. apply insert_id. rewrite H. f_equal. symmetry.
    apply imap_same. intros i x _. unfold accumulated. simpl. ring.
  - intros rhs lb Hb Hlen. eexists.
    split; [by apply (PlusEqScaled1_run this rO rhs l lb)|].
    unfold updated; simpl. apply insert_id. rewrite H. f_equal.
    apply list_eq. intros i. rewrite lookup_zip_with.
    destruct (l !! i) as [x|] eqn:Hx; [|done]. simpl.
    destruct (lookup_lt_is_Some_2 lb i) as [y Hy];
      [apply lookup_lt_Some in Hx; lia|].
    rewrite Hy. simpl. f_equal. ring.
Qed.

(** X11. In exact scalar arithmetic (the scalars form a commutative ring)
    scales of the same operand add up: when B is an object other than A and
    has the size of A, [A.PlusEqScaled(s1, B)] followed by
    [A.PlusEqScaled(s2, B)] leaves the same elements in every vector as
    [A.PlusEqScaled(s1 + s2, B)]. *)
Theorem PlusEqScaled1_scales_add this rhs s1 s2 l lb m :
  vectors m !! this = Some l -> vectors m !! rhs = Some lb ->
  length lb = length l -> rhs <> this ->
  exists m1 m2 m_sum,
    PlusEqScaled1 this s1 rhs m = (Returns this, m1)
    /\ PlusEqScaled1 this s2 rhs m1 = (Returns this, m2)
    /\ PlusEqScaled1 this (radd s1 s2) rhs m = (Returns this, m_sum)
    /\ vectors m2 = vectors m_sum.
Proof.
  intros H Hb Hlen Hne. eexists _, _, _.
  split; [by apply (PlusEqScaled1_run this s1 rhs l lb)|].
  split; [|split; [by apply (PlusEqScaled1_run this (radd s1 s2) rhs l lb)|]].
  - eapply (PlusEqScaled1_run this s2 rhs).
    + apply updated_lookup.
    + unfold updated; simpl. rewrite lookup_insert_ne by done. exact Hb.
    + rewrite length_zip_with. lia.
  - unfold updated; simpl. rewrite insert_insert_eq. f_equal.
    apply list_eq. intros i. rewrite !lookup_zip_with.
    destruct (l !! i) as [x|] eqn:Hx; [|done]. simpl.
    destruct (lb !! i) as [y|] eqn:Hy; [|done]. simpl. f_equal. ring.
Qed.

Lemma PlusEqScaled_each_contents this ops :
  forall l m,
    vectors m !! this = Some l -> sized_like m l ops ->
    Forall (fun operand : T * address => snd operand <> this) (tail ops) ->
    exists m2,
      PlusEqScaled_each this ops m = (Returns tt, m2)
      /\ vectors m2
         = <[this := imap (fun i x => radd x (scaled_sum m ops i)) l]> (vectors m).
Proof.
  unfold PlusEqScaled_each.
  induction ops as [|op ops IH]; intros l m H Hops Htail.
  - exists m. split; [done|]. symmetry. apply insert_id. rewrite H. f_equal.
    symmetry. apply imap_same. intros i x _. simpl. ring.
  - apply Forall_cons in Hops as [(lk & Hk & Hlk) Hops]. simpl in Htail.
    set (L1 := zip_with (fun x y => radd x (rmul (fst op) y)) l lk).
    set (es := flat_map (round_accesses this [(fst op, snd op)]) (seq 0 (length l))).
    assert (length L1 = length l) as HL1
      by (unfold L1; rewrite length_zip_with; lia).
    destruct (IH L1 (updated m this L1 es)) as (m2 & Hrun & Hv).
    + apply updated_lookup.
    + unfold sized_like in *. rewrite Forall_forall in Hops, Htail |- *.
      intros op' Hin. destruct (Hops op' Hin) as (lk' & Hk' & Hlk').
      exists lk'. split; [|lia].
      unfold updated; simpl. rewrite lookup_insert_ne; [done|].
      intros E. by apply (Htail op' Hin).
    + destruct ops; [constructor|]. by apply Forall_cons in Htail as [_ ?].
    + exists m2. split.
      * simpl. unfold bind at 1.
        rewrite (bind_returns _ _ _ _ _
                   (PlusEqScaled1_run this (fst op) (snd op) l lk m H Hk Hlk)).
        unfold ret at 1. exact Hrun.
      * rewrite Hv.
        rewrite (imap_ext _ (fun i x => radd x (scaled_sum m ops i)))
          by (intros; by rewrite scaled_sum_updated).
        unfold updated; simpl. rewrite insert_insert_eq. f_equal.
        apply list_eq. intros i. rewrite !list_lookup_imap. unfold L1.
        rewrite lookup_zip_with.
        destruct (l !! i) as [x|] eqn:Hx; [|done]. simpl.
        destruct (lookup_lt_is_Some_2 lk i) as [y Hy];
          [apply lookup_lt_Some in Hx; lia|].
        rewrite Hy. simpl.
        rewrite (element_lookup _ _ _ _ _ Hk Hy). f_equal. ring.
Qed.

(** X12. In exact scalar arithmetic (the scalars form a commutative ring):
    one call of [PlusEqScaled] on a list of any length leaves the same
    elements in every vector as one single-operand call per operand, in
    list order, provided that every operand has the size of this vector and
    that no operand after the first is this vector itself. *)
Theorem PlusEqScaled_list_is_sequential this ops l m :
  vectors m !! this = Some l -> sized_like m l ops ->
  Forall (fun operand : T * address => snd operand <> this) (tail ops) ->
  exists m_multi m_seq,
    PlusEqScaled this ops m = (Returns this, m_multi)
    /\ PlusEqScaled_each this ops m = (Returns tt, m_seq)
    /\ vectors m_multi = vectors m_seq.
Proof.
  intros H Hops Htail.
  destruct (PlusEqScaled_contents this ops l m H Hops) as (m1 & Hr1 & Hv1).
  destruct (PlusEqScaled_each_contents this ops l m H Hops Htail)
    as (m2 & Hr2 & Hv2).
  exists m1, m2. split; [done|]. split; [done|]. by rewrite Hv1, Hv2.
Qed.

(** *** Undoing a scaled addition *)

(** X13. In exact scalar arithmetic, and with scales that refer to scalars
    stored outside the output (or to its last element): a call of
    [ScaleAndAddToVector] with a scale of value s and then a call with a
    scale of value -s return both times and leave the output, every other
    Eigen vector and every vector as they were. *)
Theorem ScaleAndAddToVector_undone_by_opposite this scale scale' s a l lo m :
  vectors m !! this = Some l -> eigen m !! a = Some lo ->
  length lo = length l ->
  scale_kept m a (length lo) scale s ->
  (forall m1, vectors m1 = vectors m ->
     eigen m1 = <[a := zip_with (fun y x => radd y (rmul s x)) lo l]> (eigen m) ->
     scale_kept m1 a (length lo) scale' (ropp s)) ->
  exists m1 m2,
    ScaleAndAddToVector this scale (Some a) m = (Returns tt, m1)
    /\ ScaleAndAddToVector this scale' (Some a) m1 = (Returns tt, m2)
    /\ eigen m2 = eigen m
    /\ vectors m2 = vectors m.
Proof.
  intros H Ha Hlen Hkept Hkept'. eexists _, _.
  split; [by apply (ScaleAndAddToVector_run this scale s a l lo)|].
  assert (length (zip_with (fun y x => radd y (rmul s x)) lo l) = length lo)
    as Hz by (rewrite length_zip_with; lia).
  split; [|split].
  - eapply (ScaleAndAddToVector_run this scale' (ropp s) a l).
    + exact H.
    + unfold eupdated; simpl. apply lookup_insert_eq.
    + lia.
    + rewrite Hz. by apply Hkept'.
  - unfold eupdated; simpl. rewrite insert_insert_eq. apply insert_id.
    rewrite Ha. f_equal. apply list_eq. intros i. rewrite !lookup_zip_with.
    destruct (lo !! i) as [y|] eqn:Hy; [|done]. simpl.
    destruct (lookup_lt_is_Some_2 l i) as [x Hx];
      [apply lookup_lt_Some in Hy; lia|].
    rewrite Hx. simpl. f_equal. ring.
  - done.
Qed.

(** *** A scale that is an element of the output *)

Lemma partly_lookup_before nw old j k :
  (k < j)%nat -> (j <= length nw)%nat -> partly nw old j !! k = nw !! k.
Proof.
  intros Hk Hj. unfold partly.
  rewrite lookup_app_l by (rewrite length_take; lia).
  by apply lookup_take_lt.
Qed.

(** X22. When [scale] refers to element k of the output itself, the rounds
    up to k use the value s that element has at the call, and the rounds
    after k use the value it has after its own round, s + s * this[k]: the
    call returns with [out[i] + s * this[i]] in the elements up to k and
    [out[i] + (s + s * this[k]) * this[i]] in the elements after k. *)
Theorem ScaleAndAddToVector_scale_in_output this a k l lo m s xk :
  vectors m !! this = Some l -> eigen m !! a = Some lo ->
  length lo = length l ->
  lo !! k = Some s -> l !! k = Some xk ->
  exists m',
    ScaleAndAddToVector this (InEigen a (Z.of_nat k)) (Some a) m
    = (Returns tt, m')
    /\ eigen m' !! a
       = Some (imap (fun i (yx : T * T) =>
                       radd (fst yx)
                         (rmul (if (i <=? k)%nat then s
                                else radd s (rmul s xk)) (snd yx)))
                 (zip lo l))
    /\ vectors m' = vectors m.
Proof.
  intros H Ha Hlen Hs Hxk.
  set (nw := imap (fun i (yx : T * T) =>
                     radd (fst yx)
                       (rmul (if (i <=? k)%nat then s
                              else radd s (rmul s xk)) (snd yx)))
               (zip lo l)).
  assert (length nw = length lo) as Hz
    by (unfold nw; rewrite length_imap, length_zip_with; lia).
  assert (forall j z, nw !! j = Some z ->
            exists y x, lo !! j = Some y /\ l !! j = Some x
                        /\ z = radd y (rmul (if (j <=? k)%nat then s
                                             else radd s (rmul s xk)) x))
    as Hnw.
  { intros j z Hj. unfold nw in Hj. rewrite list_lookup_imap in Hj.
    destruct (zip lo l !! j) as [[y x]|] eqn:Hyx; [|done].
    apply lookup_zip_with_Some in Hyx as (y' & x' & [= -> ->] & Hy & Hx).
    exists y', x'. injection Hj as <-. done. }
  eexists. split; [|split].
  - unfold ScaleAndAddToVector, DRAKE_THROW_UNLESS. cbn [negb is_nullptr].
    rewrite (bind_returns _ _ m tt m) by done.
    step (rows_run _ _ _ Ha). step (size_run _ _ _ H).
    rewrite Hlen, Z.eqb_refl. cbn [negb].
    rewrite (bind_returns _ _ m tt m) by done.
    rewrite <- Hlen.
    apply (eigen_fill_loop a nw (fun j => [Load this (Z.of_nat j)]));
      [done|done|].
    intros j z es Hj.
    destruct (Hnw j z Hj) as (y & x & Hy & Hx & ->).
    pose proof (lookup_lt_Some _ _ _ Hy) as Hjlt.
    assert (forall es', eigen (eupdated m a (partly nw lo j) es') !! a
                        = Some (partly nw lo j)) as Hcur
      by (intros; unfold eupdated; simpl; apply lookup_insert_eq).
    assert (partly nw lo j !! k
            = Some (if (j <=? k)%nat then s else radd s (rmul s xk))) as Hread.
    { destruct (Nat.leb_spec j k) as [Hle|Hgt].
      - by rewrite partly_lookup_from.
      - rewrite partly_lookup_before by lia.
        unfold nw. rewrite list_lookup_imap.
        assert (zip lo l !! k = Some (s, xk)) as ->
          by (apply lookup_zip_with_Some; by exists s, xk).
        simpl. by rewrite Nat.leb_refl. }
    cbn [read_scalar].
    step (eigen_get_run a _ _ k _ (Hcur es) Hread).
    step (value_at_run this l (eupdated m a (partly nw lo j) es) j x H Hx).
    rewrite logged_eupdated.
    assert (partly nw lo j !! j = Some y) as Hy' by (by rewrite partly_lookup).
    step (eigen_get_run a _ _ j y (Hcur _) Hy').
    rewrite (eigen_set_run a (partly nw lo j)).
    + by rewrite eupdated_eupdated, app_nil_r.
    + apply Hcur.
    + rewrite partly_length by done. lia.
  - unfold eupdated; simpl. apply lookup_insert_eq.
  - done.
Qed.

(** *** What the mutating member functions keep *)

Section Frame.

Variable this : address.

Lemma elements_of_only_refl m : elements_of_only this m m.
Proof. by repeat split. Qed.

Lemma elements_of_only_trans m1 m2 m3 :
  elements_of_only this m1 m2 -> elements_of_only this m2 m3 ->
  elements_of_only this m1 m3.
Proof.
  intros (Ho & Hl & He & Hd) (Ho' & Hl' & He' & Hd').
  repeat split; [|congruence..].
  intros a Ha. by rewrite Ho', Ho.
Qed.

Lemma elements_of_only_logged m es : elements_of_only this m (logged m es).
Proof. by repeat split. Qed.

Lemma always_ret {A : Type} (a : A) : always (elements_of_only this) (ret a).
Proof. intros m. apply elements_of_only_refl. Qed.

Lemma always_throw {A : Type} e : always (elements_of_only this) (@throw A e).
Proof. intros m. apply elements_of_only_refl. Qed.

Lemma always_undefined {A : Type} :
  always (elements_of_only this) (@undefined A).
Proof. intros m. apply elements_of_only_refl. Qed.

Lemma always_bind {A B : Type} (c : M A) (k : A -> M B) :
  always (elements_of_only this) c ->
  (forall a, always (elements_of_only this) (k a)) ->
  always (elements_of_only this) (bind c k).
Proof.
  intros Hc Hk m. unfold bind. specialize (Hc m).
  destruct (c m) as [[a|e|] m']; simpl in *; [|done|done].
  apply (elements_of_only_trans m m'); [exact Hc|apply Hk].
Qed.

Lemma always_if {A : Type} (b : bool) (c1 c2 : M A) :
  always (elements_of_only this) c1 -> always (elements_of_only this) c2 ->
  always (elements_of_only this) (if b then c1 else c2).
Proof. by destruct b. Qed.

Lemma always_for_loop {S : Type} (body : Z -> S -> M S) count :
  (forall i s, always (elements_of_only this) (body i s)) ->
  forall i s, always (elements_of_only this) (for_loop count i body s).
Proof.
  intros Hb. induction count as [|count IH]; intros i s; simpl.
  - apply always_ret.
  - apply always_bind; [apply Hb|]. intros s'. apply IH.
Qed.

Lemma always_for_each {A S : Type} (body : A -> S -> M S) (l : list A) :
  (forall x s, always (elements_of_only this) (body x s)) ->
  forall s, always (elements_of_only this) (for_each l body s).
Proof.
  intros Hb. induction l as [|x l IH]; intros s; simpl.
  - apply always_ret.
  - apply always_bind; [apply Hb|]. intros s'. apply IH.
Qed.

Lemma always_DRAKE_THROW_UNLESS condition holds :
  always (elements_of_only this) (DRAKE_THROW_UNLESS condition holds).
Proof. destruct holds; [apply always_ret|apply always_throw]. Qed.

Lemma always_size a : always (elements_of_only this) (size a).
Proof.
  intros m. unfold size. destruct (vectors m !! a); apply elements_of_only_refl.
Qed.

Lemma always_GetAtIndex a index :
  always (elements_of_only this) (GetAtIndex a index).
Proof.
  unfold GetAtIndex.
  apply always_bind; [apply always_size|intros sz].
  apply always_bind; [apply always_DRAKE_THROW_UNLESS|intros _].
  apply always_if; [apply always_undefined|apply always_ret].
Qed.

Lemma always_load p : always (elements_of_only this) (load p).
Proof.
  intros m. unfold load.
  destruct (lv_index p <? 0); [apply elements_of_only_refl|].
  destruct (vectors m !! lv_obj p) as [l|]; [|apply elements_of_only_refl].
  destruct (l !! Z.to_nat (lv_index p)); [|apply elements_of_only_refl].
  apply (elements_of_only_logged m [_]).
Qed.

Lemma always_value_at a index :
  always (elements_of_only this) (value_at a index).
Proof.
  unfold value_at. apply always_bind; [apply always_GetAtIndex|].
  intros p. apply always_load.
Qed.

Lemma always_rows vec : always (elements_of_only this) (rows vec).
Proof.
  destruct vec as [a|]; [|apply always_undefined]. intros m. simpl.
  destruct (eigen m !! a); apply elements_of_only_refl.
Qed.

Lemma always_eigen_get vec i : always (elements_of_only this) (eigen_get vec i).
Proof.
  destruct vec as [a|]; [|apply always_undefined]. intros m. simpl.
  destruct (i <? 0); [apply elements_of_only_refl|].
  destruct (eigen m !! a) as [l|]; [|apply elements_of_only_refl].
  destruct (l !! Z.to_nat i); apply elements_of_only_refl.
Qed.

(** The one place where a vector is written: through a reference that
    [GetAtIndex] handed out for [this]. *)
Lemma always_SetAtIndex index value :
  always (elements_of_only this) (SetAtIndex this index value).
Proof.
  intros m. unfold SetAtIndex, GetAtIndex, bind, size, DRAKE_THROW_UNLESS.
  destruct (vectors m !! this) as [l|] eqn:E; simpl;
    [|apply elements_of_only_refl].
  destruct (index <? Z.of_nat (length l)); simpl;
    [|apply elements_of_only_refl].
  destruct (index <? 0) eqn:E0; simpl; [apply elements_of_only_refl|].
  unfold store; simpl. rewrite E0, E.
  destruct (Nat.ltb _ _); simpl; [|apply elements_of_only_refl].
  repeat split; simpl.
  - intros a Ha. by rewrite lookup_insert_ne.
  - by rewrite lookup_insert_eq, E; simpl; rewrite length_insert.
Qed.

Create HintDb frame.
#[local] Hint Resolve always_ret always_throw always_undefined
  always_DRAKE_THROW_UNLESS always_size always_value_at always_rows
  always_eigen_get always_SetAtIndex : frame.

(** Close a goal by a hint, or else split a sequence, a branch or a loop
    into its parts. *)
Ltac prove_frame :=
  repeat first [ solve [auto with frame]
               | apply always_bind; [|intros ?]
               | apply always_if
               | apply always_for_loop; intros ? ?
               | apply always_for_each; intros ? ? ].

Lemma always_DoPlusEqScaled ops :
  always (elements_of_only this) (DoPlusEqScaled this ops).
Proof. unfold DoPlusEqScaled, for_int. prove_frame. Qed.

(** X15. Whenever [SetAtIndex], [SetFrom], [SetFromVector], [SetZero] or
    [PlusEqScaled] returns or throws, whatever its arguments, it has changed
    nothing but the elements of this vector: every other vector keeps its
    elements, this vector keeps its size, and no Eigen vector is changed
    (vectors and Eigen vectors being objects of their own, which share no
    storage). *)
Theorem mutators_change_elements_of_this_only :
  (forall index value m,
     fst (SetAtIndex this index value m) <> Undefined ->
     elements_of_only this m (snd (SetAtIndex this index value m)))
  /\ (forall value m,
        fst (SetFrom this value m) <> Undefined ->
        elements_of_only this m (snd (SetFrom this value m)))
  /\ (forall value m,
        fst (SetFromVector this value m) <> Undefined ->
        elements_of_only this m (snd (SetFromVector this value m)))
  /\ (forall m,
        fst (SetZero this m) <> Undefined ->
        elements_of_only this m (snd (SetZero this m)))
  /\ (forall ops m,
        fst (PlusEqScaled this ops m) <> Undefined ->
        elements_of_only this m (snd (PlusEqScaled this ops m))).
Proof.
  split; [|split; [|split; [|split]]].
  - intros index value m _. apply always_SetAtIndex.
  - intros value m _. revert m.
    change (always (elements_of_only this) (SetFrom this value)).
    unfold SetFrom, for_int. prove_frame.
  - intros value m _. revert m.
    change (always (elements_of_only this) (SetFromVector this value)).
    unfold SetFromVector, for_int. prove_frame.
  - intros m _. revert m.
    change (always (elements_of_only this) (SetZero this)).
    unfold SetZero, for_int. prove_frame.
  - intros ops m _. revert m.
    change (always (elements_of_only this) (PlusEqScaled this ops)).
    unfold PlusEqScaled.
    apply always_bind; [|intros _].
    + prove_frame.
    + apply always_bind; [apply always_DoPlusEqScaled|intros _].
      apply always_ret.
Qed.

End Frame.

(** *** The infinity norm *)

Lemma norm_of_snoc l x :
  norm_of (l ++ [x]) = scalar_max (norm_of l) (scalar_abs x).
Proof. unfold norm_of. by rewrite fold_left_app. Qed.

Lemma NormInf_run this l m :
  vectors m !! this = Some l ->
  NormInf this m
  = (Returns (norm_of l),
     logged m (flat_map (fun j => [Load this (Z.of_nat j)]) (seq 0 (length l)))).
Proof.
  intros H. unfold NormInf. step (size_run _ _ _ H).
  unfold for_int. rewrite Nat2Z.id.
  destruct (for_loop_inv
              (fun j norm m' =>
                 norm = norm_of (take j l)
                 /\ m' = logged m (flat_map (fun j => [Load this (Z.of_nat j)])
                                     (seq 0 j)))
              (fun i norm =>
                 x <- value_at this i ;;
                 let val := scalar_abs x in ret (scalar_max norm val))
              (length l) 0%nat rO m) as (n & m' & Hrun & -> & ->).
  - split; [by rewrite take_0|by rewrite logged_nil].
  - intros j norm m1 Hj [-> ->].
    destruct (lookup_lt_is_Some_2 l j ltac:(lia)) as [x Hx].
    eexists _, _. split.
    + cbv beta. step (value_at_run this l (logged m _) j x H Hx). reflexivity.
    + split.
      * by rewrite (take_S_r _ _ _ Hx), norm_of_snoc.
      * rewrite logged_logged. by rewrite seq_S, flat_map_app; simpl.
  - rewrite Nat.add_0_l, take_ge in Hrun by lia. exact Hrun.
Qed.

Section Ordered.

(** An order on the scalars for which [std::max] gives the larger of its
    two arguments. *)
Variable le : T -> T -> Prop.
Hypothesis le_refl : forall a, le a a.
Hypothesis le_trans : forall a b c, le a b -> le b c -> le a c.
Hypothesis max_l : forall a b, le a (scalar_max a b).
Hypothesis max_r : forall a b, le b (scalar_max a b).
Hypothesis max_choice : forall a b, scalar_max a b = a \/ scalar_max a b = b.

Lemma fold_max_bounds l :
  forall a,
    let n := fold_left (fun norm x => scalar_max norm (scalar_abs x)) l a in
    le a n
    /\ (forall x, x ∈ l -> le (scalar_abs x) n)
    /\ (n = a \/ exists x, x ∈ l /\ n = scalar_abs x).
Proof.
  induction l as [|y l IH]; intros a; simpl.
  - split; [apply le_refl|]. split; [|by left].
    intros x Hx. by apply elem_of_nil in Hx.
  - destruct (IH (scalar_max a (scalar_abs y))) as (Hle & Hall & Hex).
    split; [by apply (le_trans _ (scalar_max a (scalar_abs y)))|].
    split.
    + intros x Hx. apply elem_of_cons in Hx as [->|Hx]; [|by apply Hall].
      by apply (le_trans _ (scalar_max a (scalar_abs y))).
    + destruct Hex as [Heq|(x & Hx & Heq)].
      * destruct (max_choice a (scalar_abs y)) as [E|E].
        -- left. by rewrite Heq, E.
        -- right. exists y. split; [apply list_elem_of_here|]. by rewrite Heq, E.
      * right. exists x. split; [by apply list_elem_of_further|done].
Qed.

(** X16. [NormInf] returns the largest absolute value among the elements,
    and zero when that is larger: the result is at least zero and at least
    the absolute value of every element, and it is zero or the absolute
    value of some element; for the empty vector it is zero. *)
Theorem NormInf_largest_absolute_value this l m :
  vectors m !! this = Some l ->
  exists n m1,
    NormInf this m = (Returns n, m1)
    /\ le rO n
    /\ (forall x, x ∈ l -> le (scalar_abs x) n)
    /\ (n = rO \/ exists x, x ∈ l /\ n = scalar_abs x)
    /\ (l = [] -> n = rO).
Proof.
  intros H. eexists _, _. split; [by apply NormInf_run|].
  destruct (fold_max_bounds l rO) as (H0 & Hall & Hex).
  split; [exact H0|]. split; [exact Hall|]. split; [exact Hex|].
  by intros ->.
Qed.

End Ordered.

(** *** Indexing with [operator[]] *)

Lemma int_of_size_t_small idx : 0 <= idx < 2 ^ 31 -> int_of_size_t idx = idx.
Proof.
  intros Hi. unfold int_of_size_t. rewrite Z.mod_small by lia.
  destruct (Z.ltb_spec idx (2 ^ 31)); [done|lia].
Qed.

Lemma int_of_size_t_period idx :
  int_of_size_t (idx + 2 ^ 32) = int_of_size_t idx.
Proof.
  unfold int_of_size_t.
  replace (idx + 2 ^ 32) with (idx + 1 * 2 ^ 32) by lia.
  by rewrite Z_mod_plus_full.
Qed.

(** X17. [operator[]] narrows its [size_t] index to the [int] that
    [GetAtIndex] takes (64 and 32 bits).  For a vector of fewer than 2^31
    elements: an index below [size()] gives the reference to that element,
    an index from [size()] up to 2^31 - 1 throws, and an index 2^32 + k with
    k below [size()] is taken for k and gives the reference to element k. *)
Theorem operator_index_narrows this l m :
  vectors m !! this = Some l -> Z.of_nat (length l) < 2 ^ 31 ->
  (forall idx, 0 <= idx < Z.of_nat (length l) ->
     operator_index this idx m = (Returns (LValue this idx), m))
  /\ (forall idx, Z.of_nat (length l) <= idx < 2 ^ 31 ->
        operator_index this idx m
        = (Throws (runtime_error "index < size()"), m))
  /\ (forall k, 0 <= k < Z.of_nat (length l) ->
        operator_index this (k + 2 ^ 32) m = (Returns (LValue this k), m)).
Proof.
  intros H Hsz.
  assert (forall idx, 0 <= idx < Z.of_nat (length l) ->
            GetAtIndex this idx m = (Returns (LValue this idx), m)) as Hin.
  { intros idx Hi. destruct (Z_of_nat_complete idx ltac:(lia)) as [n ->].
    apply (GetAtIndex_run this l); [done|lia]. }
  split; [|split].
  - intros idx Hi. unfold operator_index.
    rewrite int_of_size_t_small by lia. by apply Hin.
  - intros idx Hi. unfold operator_index.
    rewrite int_of_size_t_small by lia.
    apply (GetAtIndex_at_or_past_size this l); [done|lia].
  - intros k Hk. unfold operator_index.
    rewrite int_of_size_t_period, int_of_size_t_small by lia. by apply Hin.
Qed.

(** *** Compositions *)

(** X18. When B is an object other than A and has the size of A, [SetZero]
    on A followed by [A += B] leaves the same elements in every vector as
    [A.SetFrom(B)]. *)
Theorem SetZero_then_plus_eq_is_SetFrom this rhs l lb m :
  vectors m !! this = Some l -> vectors m !! rhs = Some lb ->
  length lb = length l -> rhs <> this ->
  exists m1 m2 m3,
    SetZero this m = (Returns tt, m1)
    /\ operator_plus_eq this rhs m1 = (Returns this, m2)
    /\ SetFrom this rhs m = (Returns tt, m3)
    /\ vectors m2 = vectors m3.
Proof.
  intros H Hb Hlen Hne. eexists _, _, _.
  split; [by apply SetZero_run|].
  split; [|split; [by apply (SetFrom_run this rhs l lb)|]].
  - eapply (PlusEqScaled1_run this rI rhs).
    + apply updated_lookup.
    + unfold updated; simpl. rewrite lookup_insert_ne by done. exact Hb.
    + rewrite length_replicate. lia.
  - unfold updated; simpl. rewrite insert_insert_eq. f_equal.
    apply list_eq. intros i. rewrite lookup_zip_with.
    destruct (lb !! i) as [y|] eqn:Hy.
    + rewrite lookup_replicate_2 by (apply lookup_lt_Some in Hy; lia).
      simpl. f_equal. ring.
    + by destruct (replicate (length l) rO !! i).
Qed.

(** *** The accumulation loop without the size check *)

(** A loop whose rounds keep an invariant up to round [k], where the body
    throws, throws there. *)
Lemma for_loop_throws {S : Type} (I : nat -> S -> memory -> Prop)
    (Q : memory -> Prop) (body : Z -> S -> M S) e (k n : nat) :
  forall (i0 : nat) (s : S) (m : memory),
    (i0 <= k < i0 + n)%nat -> I i0 s m ->
    (forall j s1 m1, (i0 <= j < k)%nat -> I j s1 m1 ->
       exists s2 m2, body (Z.of_nat j) s1 m1 = (Returns s2, m2)
                     /\ I (Datatypes.S j) s2 m2) ->
    (forall s1 m1, I k s1 m1 ->
       exists m2, body (Z.of_nat k) s1 m1 = (Throws e, m2) /\ Q m2) ->
    exists m', for_loop n (Z.of_nat i0) body s m = (Throws e, m') /\ Q m'.
Proof.
  induction n as [|n IH]; intros i0 s m Hk HI Hstep Hthrow; [lia|].
  destruct (decide (i0 = k)) as [->|Hne].
  - destruct (Hthrow s m HI) as (m2 & Hb & HQ).
    exists m2. split; [|done]. simpl. by apply bind_throws.
  - destruct (Hstep i0 s m ltac:(lia) HI) as (s2 & m2 & Hb & HI2).
    destruct (IH (Datatypes.S i0) s2 m2 ltac:(lia) HI2) as (m' & Hl & HQ).
    { intros j s1 m1 Hj. apply Hstep. lia. }
    { done. }
    exists m'. split; [|done]. simpl. step Hb.
    by replace (Z.of_nat i0 + 1) with (Z.of_nat (Datatypes.S i0)) by lia.
Qed.

Lemma partly_lookup_within nw old j :
  (j <= length nw)%nat -> partly nw old j !! j = old !! j.
Proof.
  intros Hj. unfold partly.
  rewrite lookup_app_r by (rewrite length_take; lia).
  rewrite length_take, lookup_drop. f_equal. lia.
Qed.

(** X19. [DoPlusEqScaled] does not check sizes itself.  Called with one
    operand that has fewer elements than this vector, it throws when it
    reaches the end of the operand, and by then the elements of this vector
    below that index are already updated; [PlusEqScaled] on the same
    operand throws before anything is written. *)
Theorem DoPlusEqScaled_short_operand_partly_applied this b s l lb m :
  vectors m !! this = Some l -> vectors m !! b = Some lb ->
  (length lb < length l)%nat ->
  (exists m',
     DoPlusEqScaled this [(s, b)] m
     = (Throws (runtime_error "index < size()"), m')
     /\ vectors m'
        = <[this := zip_with (fun x y => radd x (rmul s y)) l lb
                    ++ drop (length lb) l]> (vectors m))
  /\ PlusEqScaled this [(s, b)] m
     = (Throws (out_of_range "Addends must be the same size."), m).
Proof.
  intros H Hb Hlt.
  assert (b <> this) as Hne by (intros ->; rewrite H in Hb; injection Hb as ->; lia).
  split.
  - unfold DoPlusEqScaled. step (size_run _ _ _ H).
    unfold for_int. rewrite Nat2Z.id.
    set (nw := zip_with (fun x y => radd x (rmul s y)) l lb).
    assert (length nw = length lb) as Hnw
      by (unfold nw; rewrite length_zip_with; lia).
    apply (for_loop_throws
             (fun j _ m1 => exists es, m1 = updated m this (partly nw l j) es)
             (fun m2 => vectors m2 = <[this := nw ++ drop (length lb) l]> (vectors m))
             _ _ (length lb) (length l) 0%nat tt m).
    + lia.
    + exists []. rewrite partly_0, updated_same by done. by rewrite logged_nil.
    + intros j [] m1 Hj [es ->].
      destruct (lookup_lt_is_Some_2 lb j ltac:(lia)) as [y Hy].
      destruct (lookup_lt_is_Some_2 l j ltac:(lia)) as [x Hx].
      assert (vectors (updated m this (partly nw l j) es) !! b = Some lb) as Hb'
        by (unfold updated; simpl; by rewrite lookup_insert_ne).
      exists tt. eexists. split.
      * cbv beta. simpl.
        rewrite (bind_returns _ _ _ _ _
                   (bind_returns _ _ _ _ _
                      (bind_returns _ _ _ _ _
                         (value_at_run b lb _ j y Hb' Hy)))).
        rewrite logged_updated.
        step (value_at_run this (partly nw l j) (updated m this _ _) j x
                (updated_lookup _ _ _ _)
                ltac:(rewrite partly_lookup_within by lia; exact Hx)).
        rewrite logged_updated.
        rewrite (SetAtIndex_run this (partly nw l j));
          [|apply updated_lookup
           |unfold partly; rewrite length_app, length_take, length_drop; lia].
        rewrite updated_updated. reflexivity.
      * eexists.
        rewrite <- (partly_insert nw l j (radd x (rmul s y)));
          [|unfold nw; by rewrite lookup_zip_with, Hx, Hy|lia].
        replace (radd x (rmul s y)) with (radd x (radd rO (rmul y s))) by ring.
        reflexivity.
    + intros [] m1 [es ->].
      assert (vectors (updated m this (partly nw l (length lb)) es) !! b = Some lb)
        as Hb' by (unfold updated; simpl; by rewrite lookup_insert_ne).
      eexists. split.
      * cbv beta. simpl. do 4 apply bind_throws.
        apply (GetAtIndex_at_or_past_size b lb); [exact Hb'|lia].
      * unfold updated, partly; simpl. by rewrite take_ge by lia.
  - unfold PlusEqScaled. apply bind_throws.
    apply (check_sizes_fail this [(s, b)] l m H).
    + constructor; [by exists lb|constructor].
    + apply Exists_cons_hd. exists lb. split; [done|lia].
Qed.

(** *** What the reading member functions leave behind *)


(** *** Which exceptions there are, and what they leave behind *)

(** X20. [SetZero], [CopyToVector], [NormInf] and streaming check nothing
    and never throw, whatever the memory. *)
Theorem unchecked_members_never_throw this :
  (forall m e, fst (SetZero this m) <> Throws e)
  /\ (forall m e, fst (CopyToVector this m) <> Throws e)
  /\ (forall m e, fst (NormInf this m) <> Throws e)
  /\ (forall os m e, fst (operator_shl os this m) <> Throws e).
Proof.
  split; [|split; [|split]]; intros; destruct (vectors m !! this) as [l|] eqn:E.
  - by rewrite (SetZero_run this l m E).
  - unfold SetZero, bind, size. by rewrite E.
  - by rewrite (CopyToVector_run this l m E).
  - unfold CopyToVector, bind, size. by rewrite E.
  - by rewrite (NormInf_run this l m E).
  - unfold NormInf, bind, size. by rewrite E.
  - by rewrite (operator_shl_run os this l m E).
  - unfold operator_shl, bind, size. by rewrite E.
Qed.

(** The size check on a list of operands returns with all operands of the
    size of this vector, or throws, or meets an operand that is no object;
    it never changes the memory. *)
Lemma check_sizes_outcomes this l m ops :
  vectors m !! this = Some l ->
  (check_sizes this ops m = (Returns tt, m) /\ sized_like m l ops)
  \/ check_sizes this ops m
     = (Throws (out_of_range "Addends must be the same size."), m)
  \/ check_sizes this ops m = (Undefined, m).
Proof.
  intros H. unfold check_sizes.
  induction ops as [|op ops IH]; simpl.
  - left. split; [done|constructor].
  - destruct (vectors m !! snd op) as [lk|] eqn:Ek.
    + destruct (decide (length lk = length l)) as [Heq|Hne].
      * rewrite (bind_returns _ _ m tt m).
        -- destruct IH as [[Hr Hs]|[Ht|Hu]]; [left|right; by left|right; by right].
           split; [done|]. constructor; [by exists lk|done].
        -- step (size_run _ _ _ Ek). step (size_run _ _ _ H).
           by rewrite Heq, Z.eqb_refl.
      * right. left. apply bind_throws.
        step (size_run _ _ _ Ek). step (size_run _ _ _ H).
        destruct (Z.eqb_spec (Z.of_nat (length lk)) (Z.of_nat (length l)));
          [lia|done].
    + right. right. unfold bind at 1 2, size at 1. by rewrite Ek.
Qed.

Lemma bind_undefined {A B : Type} (c : M A) (k : A -> M B) m m' :
  c m = (Undefined, m') -> bind c k m = (Undefined, m').
Proof. intros H. unfold bind. by rewrite H. Qed.

Lemma size_of_no_object a m :
  vectors m !! a = None -> size a m = (Undefined, m).
Proof. intros H. unfold size. by rewrite H. Qed.

Lemma PlusEqScaled_without_this this m ops :
  vectors m !! this = None -> PlusEqScaled this ops m = (Undefined, m).
Proof.
  intros E. unfold PlusEqScaled. destruct ops as [|op ops].
  - rewrite (bind_returns _ _ m tt m) by done.
    apply bind_undefined. unfold DoPlusEqScaled.
    by apply bind_undefined, size_of_no_object.
  - apply bind_undefined. simpl. apply bind_undefined.
    destruct (vectors m !! snd op) as [lk|] eqn:Ek.
    + step (size_run _ _ _ Ek). by apply bind_undefined, size_of_no_object.
    + by apply bind_undefined, size_of_no_object.
Qed.

(** Inside the loop of [ScaleAndAddToVector] nothing throws. *)
Lemma never_throws_bind {A B : Type} V (c : M A) (k : A -> M B) :
  read_only c -> never_throws_from V c ->
  (forall a, never_throws_from V (k a)) ->
  never_throws_from V (bind c k).
Proof.
  intros Hro Hc Hk m e HV. unfold bind.
  specialize (Hro m). specialize (Hc m).
  destruct (c m) as [[a|e'|] m']; simpl in *;
    [|exfalso; by apply (Hc e' HV)|done].
  apply Hk. by rewrite Hro.
Qed.

Lemma never_throws_for_loop {S : Type} V (body : Z -> S -> M S) n :
  (forall i s, read_only (body i s)) ->
  forall k s,
    (forall j s', (k <= j < k + n)%nat ->
       never_throws_from V (body (Z.of_nat j) s')) ->
    never_throws_from V (for_loop n (Z.of_nat k) body s).
Proof.
  intros Hro. induction n as [|n IH]; intros k s Hb; simpl.
  - by intros m e _.
  - apply never_throws_bind; [apply Hro|apply Hb; lia|].
    intros s'. replace (Z.of_nat k + 1) with (Z.of_nat (Datatypes.S k)) by lia.
    apply IH. intros j s'' Hj. apply Hb. lia.
Qed.

Lemma read_only_read_scalar scale : read_only (read_scalar scale).
Proof.
  destruct scale as [s|p|b k]; cbn [read_scalar];
    [apply read_only_ret| |apply read_only_eigen_get].
  intros m. unfold load.
  destruct (lv_index p <? 0); [done|].
  destruct (vectors m !! lv_obj p) as [l|]; [|done].
  by destruct (l !! Z.to_nat (lv_index p)).
Qed.

Lemma never_throws_eigen_get V vec i : never_throws_from V (eigen_get vec i).
Proof.
  intros m e _. destruct vec as [a|]; [|done]. simpl.
  destruct (i <? 0); [done|].
  destruct (eigen m !! a) as [l|]; [|done].
  by destruct (l !! Z.to_nat i).
Qed.

Lemma never_throws_eigen_set V vec i x :
  never_throws_from V (eigen_set vec i x).
Proof.
  intros m e _. destruct vec as [a|]; [|done]. simpl.
  destruct (i <? 0); [done|].
  destruct (eigen m !! a) as [l|]; [|done].
  by destruct (Nat.ltb _ _).
Qed.

Lemma never_throws_read_scalar V scale :
  never_throws_from V (read_scalar scale).
Proof.
  destruct scale as [s|p|b k]; cbn [read_scalar];
    [by intros m e _| |apply never_throws_eigen_get].
  intros m e _. unfold load.
  destruct (lv_index p <? 0); [done|].
  destruct (vectors m !! lv_obj p) as [l|]; [|done].
  by destruct (l !! Z.to_nat (lv_index p)).
Qed.

Lemma never_throws_value_at V this l j :
  V !! this = Some l -> (j < length l)%nat ->
  never_throws_from V (value_at this (Z.of_nat j)).
Proof.
  intros H Hj m e HV. rewrite <- HV in H.
  destruct (lookup_lt_is_Some_2 l j Hj) as [x Hx].
  by rewrite (value_at_run this l m j x H Hx).
Qed.

Lemma ScaleAndAddToVector_loop_never_throws this scale a l m e m' :
  vectors m !! this = Some l ->
  for_int (Z.of_nat (length l))
    (fun i (_ : unit) =>
       s <- read_scalar scale ;;
       x <- value_at this i ;;
       y <- eigen_get (Some a) i ;;
       eigen_set (Some a) i (radd y (rmul s x))) tt m
  <> (Throws e, m').
Proof.
  intros H Ht.
  assert (never_throws_from (vectors m)
            (for_int (Z.of_nat (length l))
               (fun i (_ : unit) =>
                  s <- read_scalar scale ;;
                  x <- value_at this i ;;
                  y <- eigen_get (Some a) i ;;
                  eigen_set (Some a) i (radd y (rmul s x))) tt)) as Hnt.
  { unfold for_int. rewrite Nat2Z.id.
    apply (never_throws_for_loop (vectors m) _ (length l)) with (k := 0%nat).
    - intros i s.
      apply read_only_bind; [apply read_only_read_scalar|intros ?].
      prove_read_only.
    - intros j [] Hj.
      apply never_throws_bind;
        [apply read_only_read_scalar|apply never_throws_read_scalar|intros s].
      apply never_throws_bind;
        [apply read_only_value_at
        |apply (never_throws_value_at _ this l); [done|lia]|intros x].
      apply never_throws_bind;
        [apply read_only_eigen_get|apply never_throws_eigen_get|intros y].
      apply never_throws_eigen_set. }
  apply (Hnt m e eq_refl). by rewrite Ht.
Qed.

(** X21. The members that check their arguments throw only from those
    checks, and a call that throws has written nothing: whenever [SetFrom],
    [SetFromVector], [CopyToPreSizedVector], [ScaleAndAddToVector] (either
    overload) or [PlusEqScaled] throws, whatever the arguments, the
    exception is the one of its size check or null check and the memory is
    exactly as it was before the call.  The overload of
    [ScaleAndAddToVector] that takes a reference has no null check to
    fail. *)
Theorem throwing_call_has_written_nothing this :
  (forall value m e m',
     SetFrom this value m = (Throws e, m') ->
     e = runtime_error "value.size() == size()" /\ m' = m)
  /\ (forall value m e m',
        SetFromVector this value m = (Throws e, m') ->
        e = runtime_error "value.rows() == size()" /\ m' = m)
  /\ (forall vec m e m',
        CopyToPreSizedVector this vec m = (Throws e, m') ->
        (e = runtime_error "vec != nullptr"
         \/ e = runtime_error "vec->rows() == size()") /\ m' = m)
  /\ (forall scale vec m e m',
        ScaleAndAddToVector this scale vec m = (Throws e, m') ->
        (e = runtime_error "vec != nullptr"
         \/ e = out_of_range "Addends must be the same size.") /\ m' = m)
  /\ (forall scale vec m e m',
        ScaleAndAddToVector_ref this scale vec m = (Throws e, m') ->
        e = out_of_range "Addends must be the same size." /\ m' = m)
  /\ (forall ops m e m',
        PlusEqScaled this ops m = (Throws e, m') ->
        e = out_of_range "Addends must be the same size." /\ m' = m).
Proof.
  assert (forall scale a m e m',
            ScaleAndAddToVector this scale (Some a) m = (Throws e, m') ->
            e = out_of_range "Addends must be the same size." /\ m' = m)
    as Hscale.
  { intros scale a m e m' Ht.
    destruct (eigen m !! a) as [lo|] eqn:Ea;
      [|unfold ScaleAndAddToVector, bind, DRAKE_THROW_UNLESS, rows in Ht;
        simpl in Ht; by rewrite Ea in Ht].
    destruct (vectors m !! this) as [l|] eqn:E;
      [|unfold ScaleAndAddToVector, bind, DRAKE_THROW_UNLESS, rows, size in Ht;
        simpl in Ht; by rewrite Ea, E in Ht].
    destruct (decide (length lo = length l)) as [Heq|Hne].
    - exfalso. unfold ScaleAndAddToVector, DRAKE_THROW_UNLESS in Ht.
      cbn [negb is_nullptr] in Ht.
      rewrite (bind_returns _ _ m tt m) in Ht by done.
      rewrite (bind_returns _ _ _ _ _ (rows_run _ _ _ Ea)) in Ht.
      rewrite (bind_returns _ _ _ _ _ (size_run _ _ _ E)) in Ht.
      rewrite Heq, Z.eqb_refl in Ht. cbn [negb] in Ht.
      rewrite (bind_returns _ _ m tt m) in Ht by done.
      by apply (ScaleAndAddToVector_loop_never_throws this scale a l m e m' E).
    - rewrite (ScaleAndAddToVector_mismatch this scale a l lo m E Ea Hne) in Ht.
      by injection Ht as <- <-. }
  split; [|split; [|split; [|split; [|split]]]].
  - intros value m e m' Ht.
    destruct (vectors m !! value) as [lv|] eqn:Ev;
      [|unfold SetFrom, bind, size in Ht; by rewrite Ev in Ht].
    destruct (vectors m !! this) as [l|] eqn:E;
      [|unfold SetFrom, bind, size in Ht; by rewrite Ev, E in Ht].
    destruct (decide (length lv = length l)) as [Heq|Hne].
    + by rewrite (SetFrom_run this value l lv m E Ev Heq) in Ht.
    + rewrite (SetFrom_mismatch this value l lv m E Ev Hne) in Ht.
      by injection Ht as <- <-.
  - intros value m e m' Ht.
    destruct (eigen m !! value) as [lv|] eqn:Ev;
      [|unfold SetFromVector, bind, rows in Ht; by rewrite Ev in Ht].
    destruct (vectors m !! this) as [l|] eqn:E;
      [|unfold SetFromVector, bind, rows, size in Ht; by rewrite Ev, E in Ht].
    destruct (decide (length lv = length l)) as [Heq|Hne].
    + by rewrite (SetFromVector_run this value l lv m E Ev Heq) in Ht.
    + rewrite (SetFromVector_mismatch this value l lv m E Ev Hne) in Ht.
      by injection Ht as <- <-.
  - intros [a|] m e m' Ht; [|injection Ht as <- <-; split; [by left|done]].
    destruct (eigen m !! a) as [lo|] eqn:Ea;
      [|unfold CopyToPreSizedVector, bind, DRAKE_THROW_UNLESS, rows in Ht;
        simpl in Ht; by rewrite Ea in Ht].
    destruct (vectors m !! this) as [l|] eqn:E;
      [|unfold CopyToPreSizedVector, bind, DRAKE_THROW_UNLESS, rows, size in Ht;
        simpl in Ht; by rewrite Ea, E in Ht].
    destruct (decide (length lo = length l)) as [Heq|Hne].
    + by rewrite (CopyToPreSizedVector_run this a l lo m E Ea Heq) in Ht.
    + rewrite (CopyToPreSizedVector_mismatch this a l lo m E Ea Hne) in Ht.
      injection Ht as <- <-. split; [by right|done].
  - intros scale [a|] m e m' Ht; [|injection Ht as <- <-; split; [by left|done]].
    destruct (Hscale scale a m e m' Ht) as [-> ->]. split; [by right|done].
  - intros scale vec. apply Hscale.
  - intros ops m e m' Ht.
    destruct (vectors m !! this) as [l|] eqn:E;
      [|by rewrite (PlusEqScaled_without_this this m ops E) in Ht].
    destruct (check_sizes_outcomes this l m ops E) as [[Hr Hs]|[Hc|Hc]].
    + by rewrite (PlusEqScaled_run this ops l m E Hs) in Ht.
    + unfold PlusEqScaled in Ht. rewrite (bind_throws _ _ _ _ _ Hc) in Ht.
      by injection Ht as <- <-.
    + unfold PlusEqScaled in Ht. unfold bind at 1 in Ht.
      change (for_each ops _ tt m) with (check_sizes this ops m) in Ht.
      by rewrite Hc in Ht.
Qed.

End VectorBase.

(** ** The scalar type [Z] and concrete memories *)

(** Vector 1 holds [1,2,3], vector 2 holds [10,20,30], vector 3 holds [5];
    Eigen vector 5 has three rows, Eigen vector 6 has one; [VectorXd] 7 and
    8 hold bounds. *)
Definition sample : @memory Z Z :=
  Memory
    (<[1%positive := [1; 2; 3]]>
       (<[2%positive := [10; 20; 30]]> (<[3%positive := [5]]> ∅)))
    (<[5%positive := [7; 8; 9]]> (<[6%positive := [4]]> ∅))
    (<[7%positive := [0; 1]]> (<[8%positive := [2]]> ∅))
    [].

(** Vector 1 holds [1], vector 2 holds [10]. *)
Definition short : @memory Z Z :=
  Memory (<[1%positive := [1]]> (<[2%positive := [10]]> ∅)) ∅ ∅ [].

(** A memory whose only vector is empty. *)
Definition empty_vector : @memory Z Z :=
  Memory (<[1%positive := []]> ∅) ∅ ∅ [].

(** Decimal text of an integer. *)
Definition show_Z (z : Z) : string := pretty z.

(** C3. For vectors A and B of equal size and any scalar s, the call
    A.PlusEqScaled(s, B) returns A and leaves in every element of A its old
    value plus s times the element of B at the call (B may be A itself);
    in particular A = [1,2,3], B = [10,20,30] and s = 2 give
    A = [21,42,63]. *)
Theorem PlusEqScaled1_adds_scaled :
  (forall (T D : Type) (rO rI : T) (radd rmul rsub : T -> T -> T) (ropp : T -> T),
     ring_theory rO rI radd rmul rsub ropp eq ->
     forall (this rhs : address) (scale : T) (l lb : list T) (m : @memory T D),
       vectors m !! this = Some l -> vectors m !! rhs = Some lb ->
       length lb = length l ->
       exists m' l',
         PlusEqScaled1 rO radd rmul this scale rhs m = (Returns this, m')
         /\ vectors m' !! this = Some l'
         /\ length l' = length l
         /\ forall i x y, l !! i = Some x -> lb !! i = Some y ->
              l' !! i = Some (radd x (rmul scale y)))
  /\ (forall (D : Type) (a b : address) (m : @memory Z D),
        vectors m !! a = Some [1; 2; 3] -> vectors m !! b = Some [10; 20; 30] ->
        exists m',
          PlusEqScaled1 0 Z.add Z.mul a 2 b m = (Returns a, m')
          /\ vectors m' !! a = Some [21; 42; 63]).
Proof.
  split.
  - intros T D rO rI radd rmul rsub ropp Tring this rhs scale l lb m H Hb Hlen.
    eexists _, _.
    split; [by apply (PlusEqScaled1_run rO rI radd rmul rsub ropp Tring
                        this scale rhs l lb)|].
    split; [apply updated_lookup|].
    split; [rewrite length_zip_with; lia|].
    intros i x y Hx Hy. rewrite lookup_zip_with, Hx, Hy. done.
  - intros D a b m Ha Hb. eexists.
    split; [by apply (PlusEqScaled1_run 0 1 Z.add Z.mul Z.sub Z.opp Zth
                        a 2 b [1; 2; 3] [10; 20; 30])|].
    apply updated_lookup.
Qed.

(** C3 on two memories: [1] += 3*[10] and [1,2,3] += 2*[10,20,30]. *)
Lemma PlusEqScaled1_adds_scaled_witness :
  (vectors short !! 1%positive = Some [1]
   /\ vectors short !! 2%positive = Some [10]
   /\ exists m' l',
        PlusEqScaled1 0 Z.add Z.mul 1%positive 3 2%positive short
        = (Returns 1%positive, m')
        /\ vectors m' !! 1%positive = Some l'
        /\ l' !! 0%nat = Some 31)
  /\ (vectors sample !! 1%positive = Some [1; 2; 3]
      /\ vectors sample !! 2%positive = Some [10; 20; 30]
      /\ exists m',
           PlusEqScaled1 0 Z.add Z.mul 1%positive 2 2%positive sample
           = (Returns 1%positive, m')
           /\ vectors m' !! 1%positive = Some [21; 42; 63]).
Proof.
  split.
  - split; [reflexivity|]. split; [reflexivity|].
    destruct (proj1 PlusEqScaled1_adds_scaled Z Z 0 1 Z.add Z.mul Z.sub Z.opp Zth
                1%positive 2%positive 3 [1] [10] short)
      as (m' & l' & Hrun & Hl' & _ & Hi); [reflexivity|reflexivity|reflexivity|].
    exists m', l'. split; [exact Hrun|]. split; [exact Hl'|].
    apply (Hi 0%nat 1 10); reflexivity.
  - split; [reflexivity|]. split; [reflexivity|].
    apply (proj2 PlusEqScaled1_adds_scaled Z 1%positive 2%positive sample);
      reflexivity.
Defined.

(** C1 with a second operand of size 1 against a vector of size 3. *)
Lemma PlusEqScaled_mismatch_leaves_untouched_witness :
  vectors sample !! 1%positive = Some [1; 2; 3]
  /\ PlusEqScaled 0 Z.add Z.mul 1%positive [(2, 2%positive); (1, 3%positive)] sample
     = (Throws (out_of_range "Addends must be the same size."), sample).
Proof.
  split; [reflexivity|].
  apply (@PlusEqScaled_mismatch_leaves_untouched Z Z 0 Z.add Z.mul
           1%positive _ [1; 2; 3] sample).
  - reflexivity.
  - repeat constructor; eexists; reflexivity.
  - apply Exists_cons_tl, Exists_cons_hd. exists [5].
    split; [reflexivity|simpl; lia].
Defined.


(** C4 as stated fails when the second operand is this vector itself: with
    A = [1] and B = [10], accumulating (1, B) and (1, A) in one call leaves
    A = [12], while accumulating (1, B) and then (1, A) leaves A = [22]. *)
Lemma PlusEqScaled_pair_differs_when_aliased :
  vectors short !! 1%positive = Some [1]
  /\ vectors short !! 2%positive = Some [10]
  /\ exists m_multi m_first m_seq,
       PlusEqScaled 0 Z.add Z.mul 1%positive [(1, 2%positive); (1, 1%positive)] short
       = (Returns 1%positive, m_multi)
       /\ PlusEqScaled1 0 Z.add Z.mul 1%positive 1 2%positive short
          = (Returns 1%positive, m_first)
       /\ PlusEqScaled1 0 Z.add Z.mul 1%positive 1 1%positive m_first
          = (Returns 1%positive, m_seq)
       /\ vectors m_multi !! 1%positive = Some [12]
       /\ vectors m_seq !! 1%positive = Some [22]
       /\ vectors m_multi <> vectors m_seq.
Proof.
  split; [reflexivity|]. split; [reflexivity|].
  eexists _, _, _.
  split; [vm_compute; reflexivity|].
  split; [vm_compute; reflexivity|].
  split; [vm_compute; reflexivity|].
  split; [reflexivity|]. split; [reflexivity|].
  intros E. apply (f_equal (fun v => v !! 1%positive)) in E.
  vm_compute in E. discriminate E.
Qed.

(** C4 as amended, with this vector itself as first operand. *)
Lemma PlusEqScaled_pair_is_sequential_witness :
  vectors sample !! 1%positive = Some [1; 2; 3]
  /\ vectors sample !! 2%positive = Some [10; 20; 30]
  /\ 2%positive <> 1%positive
  /\ exists m_multi m_first m_seq,
       PlusEqScaled 0 Z.add Z.mul 1%positive [(3, 1%positive); (2, 2%positive)] sample
       = (Returns 1%positive, m_multi)
       /\ PlusEqScaled1 0 Z.add Z.mul 1%positive 3 1%positive sample
          = (Returns 1%positive, m_first)
       /\ PlusEqScaled1 0 Z.add Z.mul 1%positive 2 2%positive m_first
          = (Returns 1%positive, m_seq)
       /\ vectors m_multi = vectors m_seq.
Proof.
  split; [reflexivity|]. split; [reflexivity|]. split; [discriminate|].
  apply (@PlusEqScaled_pair_is_sequential Z Z 0 1 Z.add Z.mul Z.sub Z.opp Zth
           1%positive 1%positive 2%positive 3 2
           [1; 2; 3] [1; 2; 3] [10; 20; 30] sample);
    (reflexivity || discriminate).
Defined.

(** C5 on a source of another size and on a source of the same size. *)
Lemma SetFrom_copies_witness :
  (length [5] <> length [1; 2; 3]
   /\ SetFrom 1%positive 3%positive sample
      = (Throws (runtime_error "value.size() == size()"), sample))
  /\ (length [10; 20; 30] = length [1; 2; 3]
      /\ exists m1,
           SetFrom 1%positive 2%positive sample = (Returns tt, m1)
           /\ fst (CopyToVector 0 1%positive m1) = Returns [10; 20; 30]
           /\ fst (CopyToVector 0 2%positive m1) = Returns [10; 20; 30]).
Proof.
  split.
  - split; [simpl; lia|].
    apply (proj1 (@SetFrom_copies Z Z 0 1%positive 3%positive [1; 2; 3] [5] sample
                    eq_refl eq_refl)).
    simpl; lia.
  - split; [reflexivity|].
    apply (proj2 (@SetFrom_copies Z Z 0 1%positive 2%positive [1; 2; 3] [10; 20; 30]
                    sample eq_refl eq_refl)).
    reflexivity.
Defined.

(** C6 on a vector of three elements and on the empty vector. *)
Lemma SetZero_then_CopyToVector_witness :
  (vectors sample !! 1%positive = Some [1; 2; 3]
   /\ exists m1 m2,
        SetZero 0 1%positive sample = (Returns tt, m1)
        /\ CopyToVector 7 1%positive m1 = (Returns [0; 0; 0], m2))
  /\ (vectors empty_vector !! 1%positive = Some []
      /\ exists m1 m2,
           SetZero 0 1%positive empty_vector = (Returns tt, m1)
           /\ CopyToVector 7 1%positive m1 = (Returns [], m2)).
Proof.
  split; (split; [reflexivity|]).
  - destruct (@SetZero_then_CopyToVector Z Z 0 7 1%positive [1; 2; 3] sample eq_refl)
      as (m1 & m2 & Hz & Hc & _).
    exists m1, m2. split; [exact Hz|exact Hc].
  - destruct (@SetZero_then_CopyToVector Z Z 0 7 1%positive [] empty_vector eq_refl)
      as (m1 & m2 & Hz & _ & Hc).
    exists m1, m2. split; [exact Hz|exact (Hc eq_refl)].
Defined.

(** C7 on an output with one row and on an output with three rows. *)
Lemma CopyToPreSizedVector_checks_then_copies_witness :
  (length [4] <> length [1; 2; 3]
   /\ CopyToPreSizedVector 1%positive (Some 6%positive) sample
      = (Throws (runtime_error "vec->rows() == size()"), sample))
  /\ (length [7; 8; 9] = length [1; 2; 3]
      /\ exists m',
           CopyToPreSizedVector 1%positive (Some 5%positive) sample = (Returns tt, m')
           /\ eigen m' !! 5%positive = Some [1; 2; 3]).
Proof.
  destruct (@CopyToPreSizedVector_checks_then_copies Z Z 1%positive)
    as (_ & Hmis & _ & _ & Hcopy).
  split.
  - split; [simpl; lia|].
    apply (Hmis 6%positive [1; 2; 3] [4] sample); [reflexivity|reflexivity|].
    simpl; lia.
  - split; [reflexivity|].
    apply (Hcopy 5%positive [1; 2; 3] [7; 8; 9] sample); reflexivity.
Defined.

(** Vector 1 holds [1,1]; Eigen vector 5 holds [2,3]. *)
Definition ones : @memory Z Z :=
  Memory (<[1%positive := [1; 1]]> ∅) (<[5%positive := [2; 3]]> ∅) ∅ [].

(** C8 as stated fails when [scale] refers to an element of the output
    that is overwritten before the loop ends: with this = [1,1], the output
    [2,3] and [scale] its first element (2 at the call), the call leaves
    [4,7] in the output, not [2 + 2*1, 3 + 2*1] = [4,5]. *)
Lemma ScaleAndAddToVector_scale_in_output_differs :
  vectors ones !! 1%positive = Some [1; 1]
  /\ eigen ones !! 5%positive = Some [2; 3]
  /\ read_scalar (InEigen 5%positive 0) ones = (Returns 2, ones)
  /\ exists m',
       ScaleAndAddToVector Z.add Z.mul 1%positive (InEigen 5%positive 0)
         (Some 5%positive) ones = (Returns tt, m')
       /\ eigen m' !! 5%positive = Some [4; 7]
       /\ eigen m' !! 5%positive
          <> Some (zip_with (fun y x => y + 2 * x) [2; 3] [1; 1]).
Proof.
  split; [reflexivity|]. split; [reflexivity|]. split; [reflexivity|].
  eexists. split; [vm_compute; reflexivity|].
  split; [reflexivity|]. vm_compute. discriminate.
Qed.

(** C8 as amended: [7,8,9] + 2*[1,2,3] with the scale stored outside the
    output, the same output with its last element (9) as the scale, and an
    output with one row. *)
Lemma ScaleAndAddToVector_adds_scaled_witness :
  (length [7; 8; 9] = length [1; 2; 3]
   /\ exists m',
        ScaleAndAddToVector Z.add Z.mul 1%positive (Elsewhere 2)
          (Some 5%positive) sample = (Returns tt, m')
        /\ eigen m' !! 5%positive = Some [9; 12; 15]
        /\ vectors m' = vectors sample)
  /\ (scale_kept sample 5%positive 3 (InEigen 5%positive 2) 9
      /\ exists m',
           ScaleAndAddToVector Z.add Z.mul 1%positive (InEigen 5%positive 2)
             (Some 5%positive) sample = (Returns tt, m')
           /\ eigen m' !! 5%positive = Some [16; 26; 36]
           /\ vectors m' = vectors sample)
  /\ (length [4] <> length [1; 2; 3]
      /\ ScaleAndAddToVector Z.add Z.mul 1%positive (Elsewhere 2)
           (Some 6%positive) sample
         = (Throws (out_of_range "Addends must be the same size."), sample)).
Proof.
  destruct (@ScaleAndAddToVector_adds_scaled Z Z Z.add Z.mul 1%positive
              (Elsewhere 2)) as (Hadd & Hmis & _).
  destruct (@ScaleAndAddToVector_adds_scaled Z Z Z.add Z.mul 1%positive
              (InEigen 5%positive 2)) as (Hlast & _ & _).
  assert (scale_kept sample 5%positive 3 (InEigen 5%positive 2) 9) as Hkept.
  { split; [lia|]. split; [eexists; split; reflexivity|].
    intros _. reflexivity. }
  split; [|split].
  - split; [reflexivity|].
    apply (Hadd 5%positive [1; 2; 3] [7; 8; 9] sample 2); reflexivity.
  - split; [exact Hkept|].
    apply (Hlast 5%positive [1; 2; 3] [7; 8; 9] sample 9);
      [reflexivity|reflexivity|reflexivity|exact Hkept].
  - split; [simpl; lia|].
    apply (Hmis 6%positive [1; 2; 3] [4] sample); [reflexivity|reflexivity|].
    simpl; lia.
Defined.

(** C9 on [1,2,3] and on the empty vector. *)
Lemma operator_shl_renders_witness :
  (vectors sample !! 1%positive = Some [1; 2; 3]
   /\ exists m',
        operator_shl show_Z "v = " 1%positive sample = (Returns "v = [1, 2, 3]", m')
        /\ trace m' = [Load 1%positive 0; Load 1%positive 1; Load 1%positive 2])
  /\ (vectors empty_vector !! 1%positive = Some []
      /\ fst (operator_shl show_Z "v = " 1%positive empty_vector) = Returns "v = []").
Proof.
  destruct (@operator_shl_renders Z Z show_Z "v = " 1%positive) as (Hr & He & _).
  split.
  - split; [reflexivity|].
    destruct (Hr [1; 2; 3] sample eq_refl) as (Hrun & _).
    eexists. split; [exact Hrun|reflexivity].
  - split; [reflexivity|]. apply (He empty_vector). reflexivity.
Defined.

(** C10 with a null [upper] and with two valid pointers. *)
Lemma GetElementBounds_unguarded_witness :
  (is_nullptr (Some 7%positive) || is_nullptr None = true
   /\ fst (@GetElementBounds Z Z 1%positive (Some 7%positive) None sample) = Undefined)
  /\ (is_Some (eigend sample !! 7%positive)
      /\ is_Some (eigend sample !! 8%positive)
      /\ exists m',
           GetElementBounds 1%positive (Some 7%positive) (Some 8%positive) sample
           = (Returns tt, m')
           /\ eigend m' !! 7%positive = Some []
           /\ eigend m' !! 8%positive = Some []
           /\ vectors m' = vectors sample).
Proof.
  destruct (@GetElementBounds_unguarded Z Z Z.add Z.mul 1%positive)
    as (Hnull & _ & _ & Hvalid).
  split.
  - split; [reflexivity|]. apply Hnull. reflexivity.
  - assert (is_Some (eigend sample !! 7%positive)) as H7
        by (eexists; reflexivity).
    assert (is_Some (eigend sample !! 8%positive)) as H8
        by (eexists; reflexivity).
    split; [exact H7|]. split; [exact H8|].
    exact (Hvalid 7%positive 8%positive sample H7 H8).
Defined.

(** ** The further properties on concrete memories *)

(** Vector 1 holds [3,-7,2]. *)
Definition signed : @memory Z Z :=
  Memory (<[1%positive := [3; -7; 2]]> ∅) ∅ ∅ [].

(** X1 on vector 1 of [sample]: write 9 at index 1, read indices 1 and 2. *)
Lemma SetAtIndex_then_read_witness :
  vectors sample !! 1%positive = Some [1; 2; 3]
  /\ 0 <= 1 < Z.of_nat (length [1; 2; 3])
  /\ exists m1,
       SetAtIndex 1%positive 1 9 sample = (Returns tt, m1)
       /\ fst (value_at 1%positive 1 m1) = Returns 9
       /\ fst (value_at 1%positive 2 m1) = Returns 3.
Proof.
  split; [reflexivity|]. split; [simpl; lia|].
  destruct (@SetAtIndex_then_read Z Z 1%positive [1; 2; 3] sample 1 9
              eq_refl ltac:(simpl; lia)) as (m1 & Hrun & Hsame & Hother & _).
  exists m1. split; [exact Hrun|]. split; [exact Hsame|].
  apply (Hother 2 3); [lia|reflexivity|lia].
Defined.

(** X2 on vector 1 of [sample] at index 3, its size. *)
Lemma SetAtIndex_out_of_range_untouched_witness :
  Z.of_nat (length [1; 2; 3]) <= 3
  /\ SetAtIndex 1%positive 3 9 sample
     = (Throws (runtime_error "index < size()"), sample).
Proof.
  split; [simpl; lia|].
  apply (proj1 (@SetAtIndex_out_of_range_untouched Z Z 1%positive [1; 2; 3]
                  sample 3 9 eq_refl ltac:(simpl; lia))).
Defined.

(** X3 from an Eigen vector of one row and from one of three rows. *)
Lemma SetFromVector_then_CopyToVector_witness :
  (length [4] <> length [1; 2; 3]
   /\ SetFromVector 1%positive 6%positive sample
      = (Throws (runtime_error "value.rows() == size()"), sample))
  /\ (length [7; 8; 9] = length [1; 2; 3]
      /\ exists m1,
           SetFromVector 1%positive 5%positive sample = (Returns tt, m1)
           /\ fst (CopyToVector 0 1%positive m1) = Returns [7; 8; 9]
           /\ eigen m1 = eigen sample).
Proof.
  split.
  - split; [simpl; lia|].
    apply (proj1 (@SetFromVector_then_CopyToVector Z Z 0 1%positive 6%positive
                    [1; 2; 3] [4] sample eq_refl eq_refl)).
    simpl; lia.
  - split; [reflexivity|].
    apply (proj2 (@SetFromVector_then_CopyToVector Z Z 0 1%positive 5%positive
                    [1; 2; 3] [7; 8; 9] sample eq_refl eq_refl)).
    reflexivity.
Defined.

(** X4 with vector 1 and Eigen vector 5 of [sample]. *)
Lemma CopyToPreSizedVector_then_SetFromVector_witness :
  length [7; 8; 9] = length [1; 2; 3]
  /\ exists m1 m2 dense,
       CopyToPreSizedVector 1%positive (Some 5%positive) sample = (Returns tt, m1)
       /\ fst (CopyToVector 0 1%positive sample) = Returns dense
       /\ eigen m1 !! 5%positive = Some dense
       /\ SetFromVector 1%positive 5%positive m1 = (Returns tt, m2)
       /\ vectors m2 = vectors sample.
Proof.
  split; [reflexivity|].
  apply (@CopyToPreSizedVector_then_SetFromVector Z Z 0 1%positive 5%positive
           [1; 2; 3] [7; 8; 9] sample); reflexivity.
Defined.

(** X5 on vector 1 of [sample]. *)
Lemma SetFrom_self_witness :
  vectors sample !! 1%positive = Some [1; 2; 3]
  /\ exists m1,
       SetFrom 1%positive 1%positive sample = (Returns tt, m1)
       /\ vectors m1 = vectors sample.
Proof.
  split; [reflexivity|].
  apply (@SetFrom_self Z Z 1%positive [1; 2; 3] sample). reflexivity.
Defined.

(** X6 with A = [1,2,3] and B = [10,20,30]. *)
Lemma operator_plus_eq_minus_eq_elementwise_witness :
  length [10; 20; 30] = length [1; 2; 3]
  /\ (exists m1,
        operator_plus_eq 0 1 Z.add Z.mul 1%positive 2%positive sample
        = (Returns 1%positive, m1)
        /\ vectors m1 !! 1%positive = Some [11; 22; 33])
  /\ (exists m1,
        operator_minus_eq 0 1 Z.add Z.mul Z.opp 1%positive 2%positive sample
        = (Returns 1%positive, m1)
        /\ vectors m1 !! 1%positive = Some [-9; -18; -27]).
Proof.
  split; [reflexivity|].
  destruct (@operator_plus_eq_minus_eq_elementwise Z Z 0 1 Z.add Z.mul Z.sub Z.opp
              Zth 1%positive 2%positive [1; 2; 3] [10; 20; 30] sample
              eq_refl eq_refl eq_refl)
    as ((m1 & Hp & Hvp) & (m2 & Hm & Hvm)).
  split.
  - exists m1. split; [exact Hp|]. rewrite Hvp. reflexivity.
  - exists m2. split; [exact Hm|]. rewrite Hvm. reflexivity.
Defined.

(** X7 with A = [1,2,3] and B = [10,20,30]. *)
Lemma operator_plus_eq_then_minus_eq_witness :
  2%positive <> 1%positive
  /\ exists m1 m2,
       operator_plus_eq 0 1 Z.add Z.mul 1%positive 2%positive sample
       = (Returns 1%positive, m1)
       /\ operator_minus_eq 0 1 Z.add Z.mul Z.opp 1%positive 2%positive m1
          = (Returns 1%positive, m2)
       /\ vectors m2 = vectors sample.
Proof.
  split; [discriminate|].
  apply (@operator_plus_eq_then_minus_eq Z Z 0 1 Z.add Z.mul Z.sub Z.opp Zth
           1%positive 2%positive [1; 2; 3] [10; 20; 30] sample);
    (reflexivity || discriminate).
Defined.

(** X8 on vector 1 of [sample]. *)
Lemma operator_minus_eq_self_zeroes_witness :
  vectors sample !! 1%positive = Some [1; 2; 3]
  /\ exists m1,
       operator_minus_eq 0 1 Z.add Z.mul Z.opp 1%positive 1%positive sample
       = (Returns 1%positive, m1)
       /\ vectors m1 !! 1%positive = Some [0; 0; 0].
Proof.
  split; [reflexivity|].
  apply (@operator_minus_eq_self_zeroes Z Z 0 1 Z.add Z.mul Z.sub Z.opp Zth
           1%positive [1; 2; 3] sample). reflexivity.
Defined.

(** X9 with the operands (2, B), (1, A) and the same two swapped. *)
Lemma PlusEqScaled_operand_order_witness :
  Permutation [(2, 2%positive); (1, 1%positive)] [(1, 1%positive); (2, 2%positive)]
  /\ exists m1 m2,
       PlusEqScaled 0 Z.add Z.mul 1%positive [(2, 2%positive); (1, 1%positive)] sample
       = (Returns 1%positive, m1)
       /\ PlusEqScaled 0 Z.add Z.mul 1%positive [(1, 1%positive); (2, 2%positive)] sample
          = (Returns 1%positive, m2)
       /\ vectors m1 = vectors m2.
Proof.
  split; [apply perm_swap|].
  apply (@PlusEqScaled_operand_order Z Z 0 1 Z.add Z.mul Z.sub Z.opp Zth
           1%positive _ _ [1; 2; 3] sample).
  - reflexivity.
  - repeat constructor; eexists; split; reflexivity.
  - apply perm_swap.
Defined.

(** X10 on vector 1 of [sample], and with B = [10,20,30] at scale 0. *)
Lemma PlusEqScaled_nothing_to_add_witness :
  vectors sample !! 1%positive = Some [1; 2; 3]
  /\ (exists m1,
        PlusEqScaled 0 Z.add Z.mul 1%positive [] sample = (Returns 1%positive, m1)
        /\ vectors m1 = vectors sample
        /\ trace m1
           = [Load 1%positive 0; Store 1%positive 0;
              Load 1%positive 1; Store 1%positive 1;
              Load 1%positive 2; Store 1%positive 2])
  /\ (exists m1,
        PlusEqScaled1 0 Z.add Z.mul 1%positive 0 2%positive sample
        = (Returns 1%positive, m1)
        /\ vectors m1 = vectors sample).
Proof.
  split; [reflexivity|].
  destruct (@PlusEqScaled_nothing_to_add Z Z 0 1 Z.add Z.mul Z.sub Z.opp Zth
              1%positive [1; 2; 3] sample eq_refl) as (Hnone & Hzero).
  split; [exact Hnone|].
  apply (Hzero 2%positive [10; 20; 30]); reflexivity.
Defined.

(** X11 with scales 2 and 3 of B = [10,20,30]. *)
Lemma PlusEqScaled1_scales_add_witness :
  2%positive <> 1%positive
  /\ exists m1 m2 m_sum,
       PlusEqScaled1 0 Z.add Z.mul 1%positive 2 2%positive sample
       = (Returns 1%positive, m1)
       /\ PlusEqScaled1 0 Z.add Z.mul 1%positive 3 2%positive m1
          = (Returns 1%positive, m2)
       /\ PlusEqScaled1 0 Z.add Z.mul 1%positive (2 + 3) 2%positive sample
          = (Returns 1%positive, m_sum)
       /\ vectors m2 = vectors m_sum.
Proof.
  split; [discriminate|].
  apply (@PlusEqScaled1_scales_add Z Z 0 1 Z.add Z.mul Z.sub Z.opp Zth
           1%positive 2%positive 2 3 [1; 2; 3] [10; 20; 30] sample);
    (reflexivity || discriminate).
Defined.

(** X12 with the operands (3, A), (2, B), (1, B). *)
Lemma PlusEqScaled_list_is_sequential_witness :
  vectors sample !! 1%positive = Some [1; 2; 3]
  /\ exists m_multi m_seq,
       PlusEqScaled 0 Z.add Z.mul 1%positive
         [(3, 1%positive); (2, 2%positive); (1, 2%positive)] sample
       = (Returns 1%positive, m_multi)
       /\ PlusEqScaled_each 0 Z.add Z.mul 1%positive
            [(3, 1%positive); (2, 2%positive); (1, 2%positive)] sample
          = (Returns tt, m_seq)
       /\ vectors m_multi = vectors m_seq.
Proof.
  split; [reflexivity|].
  apply (@PlusEqScaled_list_is_sequential Z Z 0 1 Z.add Z.mul Z.sub Z.opp Zth
           1%positive _ [1; 2; 3] sample).
  - reflexivity.
  - repeat constructor; eexists; split; reflexivity.
  - repeat constructor; discriminate.
Defined.

(** X13 with the scales 2 and -2, stored outside the output, on Eigen
    vector 5 of [sample]. *)
Lemma ScaleAndAddToVector_undone_by_opposite_witness :
  length [7; 8; 9] = length [1; 2; 3]
  /\ exists m1 m2,
       ScaleAndAddToVector Z.add Z.mul 1%positive (Elsewhere 2)
         (Some 5%positive) sample = (Returns tt, m1)
       /\ ScaleAndAddToVector Z.add Z.mul 1%positive (Elsewhere (- 2))
            (Some 5%positive) m1 = (Returns tt, m2)
       /\ eigen m2 = eigen sample
       /\ vectors m2 = vectors sample.
Proof.
  split; [reflexivity|].
  apply (@ScaleAndAddToVector_undone_by_opposite Z Z 0 1 Z.add Z.mul Z.sub Z.opp
           Zth 1%positive (Elsewhere 2) (Elsewhere (- 2)) 2 5%positive
           [1; 2; 3] [7; 8; 9] sample);
    [reflexivity|reflexivity|reflexivity|reflexivity|].
  intros m1 _ _. reflexivity.
Defined.

(** X16 on the vector [3,-7,2], with the order and the maximum of [Z]. *)
Lemma NormInf_largest_absolute_value_witness :
  vectors signed !! 1%positive = Some [3; -7; 2]
  /\ exists n m1,
       NormInf 0 Z.abs Z.max 1%positive signed = (Returns n, m1)
       /\ 0 <= n
       /\ (forall x, x ∈ [3; -7; 2] -> Z.abs x <= n)
       /\ (n = 0 \/ exists x, x ∈ [3; -7; 2] /\ n = Z.abs x)
       /\ ([3; -7; 2] = [] -> n = 0).
Proof.
  split; [reflexivity|].
  apply (@NormInf_largest_absolute_value Z Z 0 Z.abs Z.max Z.le
           Z.le_refl Z.le_trans Z.le_max_l Z.le_max_r
           (fun a b => match Z.max_dec a b with
                       | left E => or_introl E
                       | right E => or_intror E
                       end)
           1%positive [3; -7; 2] signed).
  reflexivity.
Defined.

(** X17 on vector 1 of [sample]: indices 2, 3 and 2^32 + 2. *)
Lemma operator_index_narrows_witness :
  Z.of_nat (length [1; 2; 3]) < 2 ^ 31
  /\ @operator_index Z Z 1%positive 2 sample
     = (Returns (LValue 1%positive 2), sample)
  /\ @operator_index Z Z 1%positive 3 sample
     = (Throws (runtime_error "index < size()"), sample)
  /\ @operator_index Z Z 1%positive (2 + 2 ^ 32) sample
     = (Returns (LValue 1%positive 2), sample).
Proof.
  assert (Z.of_nat (length [1; 2; 3]) < 2 ^ 31) as Hsz by (simpl; lia).
  destruct (@operator_index_narrows Z Z 1%positive [1; 2; 3] sample eq_refl Hsz)
    as (Hin & Hout & Hwrap).
  split; [exact Hsz|]. split; [|split].
  - apply Hin. simpl; lia.
  - apply Hout. simpl; lia.
  - apply Hwrap. simpl; lia.
Defined.

(** X18 with A = [1,2,3] and B = [10,20,30]. *)
Lemma SetZero_then_plus_eq_is_SetFrom_witness :
  2%positive <> 1%positive
  /\ exists m1 m2 m3,
       SetZero 0 1%positive sample = (Returns tt, m1)
       /\ operator_plus_eq 0 1 Z.add Z.mul 1%positive 2%positive m1
          = (Returns 1%positive, m2)
       /\ SetFrom 1%positive 2%positive sample = (Returns tt, m3)
       /\ vectors m2 = vectors m3.
Proof.
  split; [discriminate|].
  apply (@SetZero_then_plus_eq_is_SetFrom Z Z 0 1 Z.add Z.mul Z.sub Z.opp Zth
           1%positive 2%positive [1; 2; 3] [10; 20; 30] sample);
    (reflexivity || discriminate).
Defined.

(** X19 with A = [1,2,3] and the operand (2, [5]): A ends as [11,2,3]. *)
Lemma DoPlusEqScaled_short_operand_partly_applied_witness :
  (length [5] < length [1; 2; 3])%nat
  /\ (exists m',
        DoPlusEqScaled 0 Z.add Z.mul 1%positive [(2, 3%positive)] sample
        = (Throws (runtime_error "index < size()"), m')
        /\ vectors m' !! 1%positive = Some [11; 2; 3])
  /\ PlusEqScaled 0 Z.add Z.mul 1%positive [(2, 3%positive)] sample
     = (Throws (out_of_range "Addends must be the same size."), sample).
Proof.
  split; [simpl; lia|].
  destruct (@DoPlusEqScaled_short_operand_partly_applied Z Z 0 1 Z.add Z.mul
              Z.sub Z.opp Zth 1%positive 3%positive 2 [1; 2; 3] [5] sample
              eq_refl eq_refl ltac:(simpl; lia)) as ((m' & Hrun & Hv) & Hchecked).
  split; [|exact Hchecked].
  exists m'. split; [exact Hrun|]. rewrite Hv. reflexivity.
Defined.


(** X15 on vector 1 of [sample]: a write past the end, which throws, and
    [SetZero], which returns. *)
Lemma mutators_change_elements_of_this_only_witness :
  (fst (SetAtIndex 1%positive 7 0 sample) <> Undefined
   /\ elements_of_only 1%positive sample (snd (SetAtIndex 1%positive 7 0 sample)))
  /\ (fst (SetZero 0 1%positive sample) <> Undefined
      /\ elements_of_only 1%positive sample (snd (SetZero 0 1%positive sample))).
Proof.
  destruct (@mutators_change_elements_of_this_only Z Z 0 Z.add Z.mul 1%positive)
    as (Hset & _ & _ & Hzero & _).
  assert (fst (SetAtIndex 1%positive 7 0 sample) <> Undefined) as H1
    by (vm_compute; discriminate).
  assert (fst (SetZero 0 1%positive sample) <> Undefined) as H2
    by (vm_compute; discriminate).
  split.
  - split; [exact H1|apply (Hset 7 0 sample H1)].
  - split; [exact H2|apply (Hzero sample H2)].
Defined.

(** X20 on vector 1 of [sample] and on an address that names no vector. *)
Lemma unchecked_members_never_throw_witness :
  fst (SetZero 0 1%positive sample) <> Throws (runtime_error "index < size()")
  /\ fst (CopyToVector 9 4%positive sample)
     <> Throws (runtime_error "index < size()").
Proof.
  destruct (@unchecked_members_never_throw Z Z 0 9 show_Z Z.abs Z.max 1%positive)
    as (Hzero & _).
  destruct (@unchecked_members_never_throw Z Z 0 9 show_Z Z.abs Z.max 4%positive)
    as (_ & Hcopy & _).
  split; [apply Hzero|apply Hcopy].
Defined.

(** X21 on calls of [sample] that throw: a source of another size, a null
    output, and an operand of another size. *)
Lemma throwing_call_has_written_nothing_witness :
  (exists e m',
     SetFrom 1%positive 3%positive sample = (Throws e, m')
     /\ e = runtime_error "value.size() == size()" /\ m' = sample)
  /\ (exists e m',
        CopyToPreSizedVector 1%positive None sample = (Throws e, m')
        /\ (e = runtime_error "vec != nullptr"
            \/ e = runtime_error "vec->rows() == size()") /\ m' = sample)
  /\ (exists e m',
        PlusEqScaled 0 Z.add Z.mul 1%positive [(1, 2%positive); (1, 3%positive)]
          sample = (Throws e, m')
        /\ e = out_of_range "Addends must be the same size." /\ m' = sample).
Proof.
  destruct (@throwing_call_has_written_nothing Z Z 0 Z.add Z.mul 1%positive)
    as (Hfrom & _ & Hcopy & _ & _ & Hplus).
  split; [|split].
  - eexists _, _. split; [vm_compute; reflexivity|].
    apply (Hfrom 3%positive sample). vm_compute; reflexivity.
  - eexists _, _. split; [vm_compute; reflexivity|].
    apply (Hcopy None sample). vm_compute; reflexivity.
  - eexists _, _. split; [vm_compute; reflexivity|].
    apply (Hplus [(1, 2%positive); (1, 3%positive)] sample).
    vm_compute; reflexivity.
Defined.

(** X22 with this = [1,1], the output [2,3] and its first element as the
    scale. *)
Lemma ScaleAndAddToVector_scale_in_output_witness :
  eigen ones !! 5%positive = Some [2; 3]
  /\ exists m',
       ScaleAndAddToVector Z.add Z.mul 1%positive (InEigen 5%positive 0)
         (Some 5%positive) ones = (Returns tt, m')
       /\ eigen m' !! 5%positive = Some [4; 7]
       /\ vectors m' = vectors ones.
Proof.
  split; [reflexivity|].
  apply (@ScaleAndAddToVector_scale_in_output Z Z Z.add Z.mul 1%positive
           5%positive 0%nat [1; 1] [2; 3] ones 2 1); reflexivity.
Defined.
